(** * socialscraper: the bounded per-site crawl, its classifier and its batch driver

    A shallow embedding of [socialscraper.py] (the functions [fetch],
    [extract_links_from_html], [is_social_link], [crawl_site] and
    [process_websites]) and the properties of it that the specification
    states.

    Conventions.
    - Python [str] values are Rocq [string]s (byte strings); [str.lower] is
      modelled on the ASCII letters.
    - [set] is [gset string], [dict] is [gmap string string].
    - A Python exception is an outcome [Raise e]; the [while] loop is unrolled
      with a fuel argument and [OutOfFuel] marks an exhausted unrolling (the
      lemma [crawl_loop_total] shows that four unrollings never exhaust it,
      [crawl_run_fuel_irrelevant] that more fuel changes nothing).
    - What the program cannot decide itself is read from an environment
      [Env]: the network, the two library parsers (BeautifulSoup, urljoin),
      and the order in which CPython hands out the elements of a [set]. *)

From Stdlib Require Import ZArith Ascii String List Lia.
From stdpp Require Import base gmap strings list fin_maps sets.

#[local] Set Warnings "-clear-no-such-hyp".

Open Scope string_scope.
Open Scope list_scope.
Open Scope nat_scope.

(** ** Outcomes of Python code *)

Inductive exn : Type :=
| ValueError
| KeyError.

Inductive outcome (A : Type) : Type :=
| Ret (a : A)
| Raise (e : exn)
| OutOfFuel.

Arguments Ret {A} a.
Arguments Raise {A} e.
Arguments OutOfFuel {A}.

Definition obind {A B : Type} (m : outcome A) (k : A → outcome B) : outcome B :=
  match m with
  | Ret a => k a
  | Raise e => Raise e
  | OutOfFuel => OutOfFuel
  end.

Notation "'let*' x ':=' m 'in' k" := (obind m (fun x => k))
  (at level 10, x name, m at level 100, k at level 200).

(** [for x in xs: st = body(x, st)], stopping at the first exception. *)
Fixpoint for_each {A S : Type} (body : A → S → outcome S) (xs : list A) (st : S)
  : outcome S :=
  match xs with
  | [] => Ret st
  | x :: xs' => let* st' := body x st in for_each body xs' st'
  end.

(** ** Python string primitives *)

Module PyStr.

Definition is_upper (c : ascii) : bool :=
  let n := nat_of_ascii c in (65 <=? n)%nat && (n <=? 90)%nat.

Definition is_lower (c : ascii) : bool :=
  let n := nat_of_ascii c in (97 <=? n)%nat && (n <=? 122)%nat.

Definition is_digit (c : ascii) : bool :=
  let n := nat_of_ascii c in (48 <=? n)%nat && (n <=? 57)%nat.

Definition lower_char (c : ascii) : ascii :=
  if is_upper c then ascii_of_nat (nat_of_ascii c + 32) else c.

(** [s.lower()] *)
Fixpoint lower (s : string) : string :=
  match s with
  | EmptyString => EmptyString
  | String c s' => String (lower_char c) (lower s')
  end.

(** [hay.startswith(pre)] *)
Definition startswith (pre hay : string) : bool := String.prefix pre hay.

(** [needle in hay] *)
Fixpoint contains (needle hay : string) : bool :=
  startswith needle hay ||
  match hay with
  | EmptyString => false
  | String _ hay' => contains needle hay'
  end.

(** [s.replace(old, new)] for a non-empty [old]: the occurrences of [old]
    are replaced from left to right and do not overlap.  [skip] counts the
    characters of an occurrence that remain to be dropped. *)
Fixpoint replace_from (skip : nat) (old new s : string) : string :=
  match s with
  | EmptyString => EmptyString
  | String c s' =>
      match skip with
      | S k => replace_from k old new s'
      | O =>
          if startswith old s
          then new +:+ replace_from (String.length old - 1) old new s'
          else String c (replace_from 0 old new s')
      end
  end.

Definition replace (old new s : string) : string := replace_from 0 old new s.

(** [c in s] for a character *)
Fixpoint has_char (c : ascii) (s : string) : bool :=
  match s with
  | EmptyString => false
  | String d s' => (if Ascii.eqb c d then true else has_char c s')
  end.

Fixpoint all_chars (p : ascii → bool) (s : string) : bool :=
  match s with
  | EmptyString => true
  | String c s' => p c && all_chars p s'
  end.

Fixpoint filter_chars (p : ascii → bool) (s : string) : string :=
  match s with
  | EmptyString => EmptyString
  | String c s' => if p c then String c (filter_chars p s') else filter_chars p s'
  end.

(** [s.lstrip(chars)] with [chars] given as a predicate *)
Fixpoint lstrip (p : ascii → bool) (s : string) : string :=
  match s with
  | EmptyString => EmptyString
  | String c s' => if p c then lstrip p s' else s
  end.

(** [s.partition(c)] on the first character satisfying [p]: the text
    before it, and the text from it on ([None] when there is none). *)
Fixpoint break_at (p : ascii → bool) (s : string) : string * option string :=
  match s with
  | EmptyString => (EmptyString, None)
  | String c s' =>
      if p c then (EmptyString, Some s)
      else let '(pre, post) := break_at p s' in (String c pre, post)
  end.

End PyStr.

(** ** [urllib.parse.urlsplit], as far as [urlparse(url).netloc] needs it

    Follows CPython's [urlsplit]: leading C0 control characters and spaces are
    stripped, tab, CR and LF are removed, a syntactically valid scheme is
    split off at the first colon, and when the remainder starts with two
    slashes the network location runs up to the first of [/], [?] and [#].
    A network location with an opening bracket and no closing one, or the
    converse, raises [ValueError("Invalid IPv6 URL")].  The further validation
    of a bracketed host that CPython 3.11.4 added, and the NFKC check on
    non-ASCII network locations, are not modelled. *)

Module UrlParse.
Import PyStr.

Definition c0_or_space (c : ascii) : bool := (nat_of_ascii c <=? 32)%nat.

Definition unsafe_byte (c : ascii) : bool :=
  let n := nat_of_ascii c in (n =? 9)%nat || (n =? 13)%nat || (n =? 10)%nat.

Definition scheme_char (c : ascii) : bool :=
  is_lower c || is_upper c || is_digit c
  || Ascii.eqb c "+" || Ascii.eqb c "-" || Ascii.eqb c ".".

Definition is_alpha (c : ascii) : bool := is_lower c || is_upper c.

Definition is_colon (c : ascii) : bool := Ascii.eqb c ":".

Definition netloc_delim (c : ascii) : bool :=
  Ascii.eqb c "/" || Ascii.eqb c "?" || Ascii.eqb c "#".

(** The scheme (lowercased, [""] when absent) and what follows it. *)
Definition split_scheme (url : string) : string * string :=
  match break_at is_colon url with
  | (String c0 pre, Some (String _ rest)) =>
      if is_alpha c0 && all_chars scheme_char (String c0 pre)
      then (lower (String c0 pre), rest)
      else (EmptyString, url)
  | _ => (EmptyString, url)
  end.

Record SplitResult : Type := mkSplit {
  scheme : string;
  netloc : string;
  rest : string   (* path, query and fragment, not split further *)
}.

Definition urlsplit (url0 : string) : outcome SplitResult :=
  let url := filter_chars (fun c => negb (unsafe_byte c)) (lstrip c0_or_space url0) in
  let '(sch, url) := split_scheme url in
  match url with
  | String "/" (String "/" after) =>
      let '(nl, post) := break_at netloc_delim after in
      if xorb (has_char "[" nl) (has_char "]" nl)
      then Raise ValueError
      else Ret (mkSplit sch nl (default EmptyString post))
  | _ => Ret (mkSplit sch EmptyString url)
  end.

(** [urlparse(url).netloc] *)
Definition urlparse_netloc (url : string) : outcome string :=
  let* r := urlsplit url in Ret (netloc r).

End UrlParse.

(** ** The platform catalog and the classifier *)

(** [SOCIAL_DOMAINS]: a [dict] literal, iterated in insertion order. *)
Definition SOCIAL_DOMAINS : list (string * string) :=
  [ ("facebook.com", "Facebook");
    ("instagram.com", "Instagram") ].

(** The [for ... in SOCIAL_DOMAINS.items()] loop of [is_social_link]. *)
Fixpoint first_match (catalog : list (string * string)) (domain : string)
  : option string :=
  match catalog with
  | [] => None
  | (social_domain, platform) :: catalog' =>
      if PyStr.contains social_domain domain then Some platform
      else first_match catalog' domain
  end.

(** [is_social_link(url)]; [None] is Python's [None]. *)
Definition is_social_link (url : string) : outcome (option string) :=
  let* nl := UrlParse.urlparse_netloc (PyStr.lower url) in
  let domain := PyStr.replace "www." "" nl in
  Ret (first_match SOCIAL_DOMAINS domain).

(** ** The environment of a crawl *)

(** What [session.get] does with one request: it raises (timeout, DNS
    failure, refused connection, a URL aiohttp rejects), or a response
    arrives, whose body may fail to decode when [response.text()] is awaited
    ([None]). *)
Inductive http_reply : Type :=
| TransportError
| Response (status : Z) (body : option string).

(** The index [i] of the oracles is the iteration of the crawl loop in which
    they are consulted, so that neither the network nor the hash order of a
    [set] has to answer twice alike. *)
Record Env : Type := mkEnv {
  (** the reply to [session.get(url, ...)] *)
  session_get : nat → string → http_reply;
  (** [[a["href"] for a in BeautifulSoup(html, "html.parser").find_all("a", href=True)]] *)
  anchor_hrefs : string → list string;
  (** [urllib.parse.urljoin(base, url)]; [None] when it raises [ValueError] *)
  urljoin : string → string → option string;
  (** the element [set.pop()] removes *)
  set_pop : nat → gset string → string;
  (** the order in which [for x in s] visits a set *)
  set_iter : nat → gset string → list string;
  set_pop_elem : ∀ i s, s ≠ ∅ → set_pop i s ∈ s;
  set_iter_perm : ∀ i s, set_iter i s ≡ₚ elements s
}.

Definition of_option {A : Type} (e : exn) (o : option A) : outcome A :=
  match o with
  | Some a => Ret a
  | None => Raise e
  end.

(** [try: m  except: handler] *)
Definition try_except {A : Type} (m : outcome A) (handler : outcome A) : outcome A :=
  match m with
  | Ret a => Ret a
  | Raise _ => handler
  | OutOfFuel => OutOfFuel
  end.

(** ** [fetch] *)

Definition fetch (env : Env) (i : nat) (url : string) : string * Z :=
  match session_get env i url with
  | Response status body =>
      if (status =? 200)%Z then
        match body with
        | Some text => (text, status)
        | None => ("", 0%Z)
        end
      else ("", status)
  | TransportError => ("", 0%Z)
  end.

(** ** [extract_links_from_html] *)

Definition extract_links_from_html (env : Env) (html base_url : string)
  : outcome (gset string) :=
  for_each
    (fun a links =>
       let* href := of_option ValueError (urljoin env base_url a) in
       Ret (links ∪ {[ href ]}))
    (anchor_hrefs env html) ∅.

(** ** [crawl_site] *)

Definition NOT_FOUND : string := "Not Found".
Definition max_pages : nat := 3.
Definition frontier_cap : nat := 10.

(** What a crawl does, in the order it does it (ghost state: the program
    keeps no such log). *)
Inductive event : Type :=
| EvFetch (url : string) (status : Z)        (* [fetch(session, url)] returned [status] *)
| EvExtract (page base : string)             (* the extractor ran on the body of [page] with base [base] *)
| EvFound (platform link : string).          (* [social_links[platform] = link] *)

(** The local variables of [crawl_site] that the loop updates. *)
Record crawl_state : Type := mkState {
  visited : gset string;
  to_visit : gset string;
  social_links : gmap string string;
  pages_crawled : nat;
  status_code : Z;
  trace : list event
}.

Definition init_state (base_url : string) : crawl_state :=
  {| visited := ∅;
     to_visit := {[ base_url ]};
     social_links := {[ "Facebook" := NOT_FOUND; "Instagram" := NOT_FOUND ]};
     pages_crawled := 0;
     status_code := 0;
     trace := [] |}.

(** [d[k]] *)
Definition dict_get (d : gmap string string) (k : string) : outcome string :=
  of_option KeyError (d !! k).

(** [social_links["Facebook"] != "Not Found" and social_links["Instagram"] != "Not Found"] *)
Definition both_found (sl : gmap string string) : outcome bool :=
  let* fb := dict_get sl "Facebook" in
  if bool_decide (fb ≠ NOT_FOUND)
  then let* ig := dict_get sl "Instagram" in Ret (bool_decide (ig ≠ NOT_FOUND))
  else Ret false.

(** Line 98, [social_links[p] = link]. *)
Definition set_finding (p link : string) (st : crawl_state) : crawl_state :=
  {| visited := visited st;
     to_visit := to_visit st;
     social_links := <[ p := link ]> (social_links st);
     pages_crawled := pages_crawled st;
     status_code := status_code st;
     trace := trace st ++ [EvFound p link] |}.

(** Lines 93-98: classify one link and record a first finding. *)
Definition record_social (link : string) (st : crawl_state) : outcome crawl_state :=
  let* platform := is_social_link link in
  match platform with
  | Some p =>
      if bool_decide (p = "") then Ret st
      else
        let* cur := dict_get (social_links st) p in
        if bool_decide (cur = NOT_FOUND) then Ret (set_finding p link st) else Ret st
  | None => Ret st
  end.

(** Line 104, [to_visit.add(link)]. *)
Definition pushed (link : string) (st : crawl_state) : crawl_state :=
  {| visited := visited st;
     to_visit := to_visit st ∪ {[ link ]};
     social_links := social_links st;
     pages_crawled := pages_crawled st;
     status_code := status_code st;
     trace := trace st |}.

(** Lines 100-106: queue an internal link; an exception of [urlparse] is
    swallowed by the bare [except]. *)
Definition enqueue_internal (base_domain link : string) (st : crawl_state)
  : outcome crawl_state :=
  try_except
    (let* link_domain := UrlParse.urlparse_netloc link in
     if PyStr.contains base_domain link_domain
        && negb (bool_decide (link ∈ visited st))
        && (size (to_visit st) <? frontier_cap)%nat
     then Ret (pushed link st)
     else Ret st)
    (Ret st).

(** The body of [for link in links]. *)
Definition process_link (base_domain link : string) (st : crawl_state)
  : outcome crawl_state :=
  let* st1 := record_social link st in
  enqueue_internal base_domain link st1.

(** How one pass through the [while] loop ends. *)
Inductive loop_ctl : Type :=
| Done (st : crawl_state)   (* the condition failed, or [break] *)
| Next (st : crawl_state).  (* the body ended, or [continue] *)

(** Line 76, [next_url = to_visit.pop()]: the frontier without [next_url]. *)
Definition popped (next_url : string) (st : crawl_state) : crawl_state :=
  {| visited := visited st;
     to_visit := to_visit st ∖ {[ next_url ]};
     social_links := social_links st;
     pages_crawled := pages_crawled st;
     status_code := status_code st;
     trace := trace st |}.

(** Lines 80-85, once [fetch] has returned [status] for [next_url]. *)
Definition mark_fetched (next_url : string) (status : Z) (st : crawl_state) : crawl_state :=
  let pages1 := S (pages_crawled st) in
  {| visited := visited st ∪ {[ next_url ]};
     to_visit := to_visit st;
     social_links := social_links st;
     pages_crawled := pages1;
     status_code := if (pages1 =? 1)%nat then status else status_code st;
     trace := trace st ++ [EvFetch next_url status] |}.

(** Line 90 as seen in the log: the extractor ran on [page] with base [base]. *)
Definition log_extract (page base : string) (st : crawl_state) : crawl_state :=
  {| visited := visited st;
     to_visit := to_visit st;
     social_links := social_links st;
     pages_crawled := pages_crawled st;
     status_code := status_code st;
     trace := trace st ++ [EvExtract page base] |}.

(** Iteration [i] of [while to_visit and pages_crawled < max_pages]. *)
Definition crawl_step (env : Env) (base_url base_domain : string) (i : nat)
    (st : crawl_state) : outcome loop_ctl :=
  if bool_decide (to_visit st = ∅) || negb (pages_crawled st <? max_pages)%nat
  then Ret (Done st)
  else
    let* found := both_found (social_links st) in
    if found then Ret (Done st)
    else
      let next_url := set_pop env i (to_visit st) in
      let st0 := popped next_url st in
      if bool_decide (next_url ∈ visited st0)
      then Ret (Next st0)
      else
        let '(html, status) := fetch env i next_url in
        let st1 := mark_fetched next_url status st0 in
        if bool_decide (html = "") then Ret (Next st1)
        else
          let* links := extract_links_from_html env html base_url in
          let st2 := log_extract next_url base_url st1 in
          let* st3 := for_each (process_link base_domain) (set_iter env i links) st2 in
          Ret (Next st3).

Fixpoint crawl_loop (fuel : nat) (env : Env) (base_url base_domain : string)
    (i : nat) (st : crawl_state) : outcome crawl_state :=
  match fuel with
  | O => OutOfFuel
  | S fuel' =>
      let* c := crawl_step env base_url base_domain i st in
      match c with
      | Done st' => Ret st'
      | Next st' => crawl_loop fuel' env base_url base_domain (S i) st'
      end
  end.

(** Lines 59-106: the state in which the loop of [crawl_site] ends. *)
Definition crawl_run (fuel : nat) (env : Env) (base_url : string) : outcome crawl_state :=
  let* base_domain := UrlParse.urlparse_netloc base_url in
  crawl_loop fuel env base_url base_domain 0 (init_state base_url).

(** The dictionary [crawl_site] returns, without its two wall-clock fields
    ([Duration (s)] and [Timestamp]). *)
Record CrawlResult : Type := mkResult {
  Business_Name : string;
  Website : string;
  Facebook : string;
  Instagram : string;
  Status_Code : Z;
  Pages_Crawled : nat
}.

Definition result_of (biz_name base_url : string) (st : crawl_state) : outcome CrawlResult :=
  let* fb := dict_get (social_links st) "Facebook" in
  let* ig := dict_get (social_links st) "Instagram" in
  Ret {| Business_Name := biz_name;
         Website := base_url;
         Facebook := fb;
         Instagram := ig;
         Status_Code := status_code st;
         Pages_Crawled := pages_crawled st |}.

Definition crawl_site (fuel : nat) (env : Env) (base_url biz_name : string)
  : outcome CrawlResult :=
  let* st := crawl_run fuel env base_url in
  result_of biz_name base_url st.

(** ** [process_websites] *)

(** Calls on the two Streamlit widgets. *)
Inductive ui_event : Type :=
| StatusText (biz_name : string) (k total : nat)   (* ["Processing: {biz_name} ({k}/{total})"] *)
| Progress (k total : nat).                        (* [progress_bar.progress(k / total)] *)

(** The loop over [enumerate(businesses)] from index [i] on.  [envs j] is the
    environment in which target [j] is crawled.  The widget calls made so far
    are returned also when a crawl raises. *)
Fixpoint process_from (fuel : nat) (envs : nat → Env) (total i : nat)
    (businesses : list (string * string)) (results : list CrawlResult)
    (ui : list ui_event) : list ui_event * outcome (list CrawlResult) :=
  match businesses with
  | [] => (ui, Ret results)
  | (biz_name, url) :: rest =>
      let ui1 := ui ++ [StatusText biz_name (i + 1) total] in
      match crawl_site fuel (envs i) url biz_name with
      | Ret result =>
          process_from fuel envs total (S i) rest (results ++ [result])
            (ui1 ++ [Progress (i + 1) total])
      | Raise e => (ui1, Raise e)
      | OutOfFuel => (ui1, OutOfFuel)
      end
  end.

Definition process_websites (fuel : nat) (envs : nat → Env)
    (businesses : list (string * string)) : list ui_event * outcome (list CrawlResult) :=
  process_from fuel envs (length businesses) 0 businesses [] [].

(** ** What the log of a crawl shows *)

(** The URLs fetched, in order. *)
Fixpoint fetched (tr : list event) : list string :=
  match tr with
  | [] => []
  | EvFetch url _ :: tr' => url :: fetched tr'
  | _ :: tr' => fetched tr'
  end.

(** The platforms whose finding was written, in order. *)
Fixpoint found_platforms (tr : list event) : list string :=
  match tr with
  | [] => []
  | EvFound p _ :: tr' => p :: found_platforms tr'
  | _ :: tr' => found_platforms tr'
  end.

(** The status of the first fetch ([0] before any fetch, as [status_code]
    is initialised). *)
Fixpoint first_status (tr : list event) : Z :=
  match tr with
  | [] => 0%Z
  | EvFetch _ status :: _ => status
  | _ :: tr' => first_status tr'
  end.

(** The platform names of the catalog. *)
Definition platforms : list string := map snd SOCIAL_DOMAINS.

(** Every catalog platform has a finding written in [tr]. *)
Definition all_found_in (tr : list event) : Prop :=
  ∀ p, p ∈ platforms → ∃ link, EvFound p link ∈ tr.

(** No fetch happens once every platform has been found. *)
Definition no_fetch_after_all_found (tr : list event) : Prop :=
  ∀ before url status after,
    tr = before ++ EvFetch url status :: after → ¬ all_found_in before.

(** Every platform of the findings has a value other than ["Not Found"]. *)
Definition all_found (sl : gmap string string) : Prop :=
  ∀ p, p ∈ platforms → ∃ v, sl !! p = Some v ∧ v ≠ NOT_FOUND.

(** The three reasons for the loop to stop. *)
Definition stop_condition (st : crawl_state) : Prop :=
  all_found (social_links st) ∨ max_pages ≤ pages_crawled st ∨ to_visit st = ∅.

(** The states in which the loop condition is evaluated: [reachable i st]
    when [st] is the state at the start of iteration [i]. *)
Inductive reachable (env : Env) (base_url base_domain : string)
  : nat → crawl_state → Prop :=
| reach_init : reachable env base_url base_domain 0 (init_state base_url)
| reach_next i st st' :
    reachable env base_url base_domain i st →
    crawl_step env base_url base_domain i st = Ret (Next st') →
    reachable env base_url base_domain (S i) st'.

(** The invariant of the crawl of [base_url]. *)
Record crawl_inv (base_url : string) (st : crawl_state) : Prop := mkInv {
  inv_disjoint : to_visit st ## visited st;
  inv_nodup : NoDup (fetched (trace st));
  inv_visited : ∀ u, u ∈ fetched (trace st) ↔ u ∈ visited st;
  inv_pages : pages_crawled st = length (fetched (trace st));
  inv_budget : pages_crawled st ≤ max_pages;
  inv_dom : dom (social_links st) = list_to_set platforms;
  inv_class : ∀ p v, social_links st !! p = Some v → v ≠ NOT_FOUND →
                     is_social_link v = Ret (Some p) ∧ EvFound p v ∈ trace st;
  inv_log : ∀ p v, EvFound p v ∈ trace st →
                   social_links st !! p = Some v ∧ v ≠ NOT_FOUND;
  inv_once : NoDup (found_platforms (trace st));
  inv_early : no_fetch_after_all_found (trace st);
  inv_base : ∀ page base, EvExtract page base ∈ trace st →
                          base = base_url ∧ page ∈ fetched (trace st);
  inv_status : status_code st = first_status (trace st)
}.

(** The widget calls of a batch that runs to its end, from index [i] on. *)
Fixpoint ui_events (total i : nat) (businesses : list (string * string)) : list ui_event :=
  match businesses with
  | [] => []
  | (biz_name, _) :: rest =>
      StatusText biz_name (i + 1) total :: Progress (i + 1) total
        :: ui_events total (S i) rest
  end.


(** [needle] occurs in [hay]. *)
Definition is_substring (needle hay : string) : Prop :=
  ∃ pre post, hay = pre +:+ needle +:+ post.

(** [v] is one of the links that the extractor returned, with [base_url]
    as base, for the body of a page that the crawl has visited. *)
Definition extracted_from_visited (env : Env) (base_url : string) (st : crawl_state)
    (v : string) : Prop :=
  ∃ i page links,
    page ∈ visited st
    ∧ (fetch env i page).1 ≠ ""
    ∧ (fetch env i page).2 = 200%Z
    ∧ extract_links_from_html env (fetch env i page).1 base_url = Ret links
    ∧ v ∈ links.

(** [u] is the root of the crawl, or a URL that [urlparse] accepts and whose
    network location contains [base_domain]. *)
Definition in_scope (base_url base_domain u : string) : Prop :=
  u = base_url
  ∨ ∃ nl, UrlParse.urlparse_netloc u = Ret nl ∧ is_substring base_domain nl.

(** ** The classifier as the specification words it *)

(** An optional leading [www.] stripped. *)
Definition strip_leading_www (host : string) : string :=
  match host with
  | String "w" (String "w" (String "w" (String "." host'))) => host'
  | _ => host
  end.

(** The host of the URL, lowercased and without a leading [www.], contains a
    catalog domain; an unparseable URL is no match. *)
Definition spec_classify (url : string) : option string :=
  match UrlParse.urlparse_netloc url with
  | Ret host => first_match SOCIAL_DOMAINS (strip_leading_www (PyStr.lower host))
  | _ => None
  end.



(** ** Text input: [str.strip] and [str.split] *)

Module PyText.

(** [c.isspace()] for an ASCII character. *)
Definition is_space (c : ascii) : bool :=
  let n := nat_of_ascii c in
  ((9 <=? n)%nat && (n <=? 13)%nat) || ((28 <=? n)%nat && (n <=? 32)%nat).

(** [s.rstrip()] *)
Fixpoint rstrip (s : string) : string :=
  match s with
  | EmptyString => EmptyString
  | String c s' =>
      match rstrip s' with
      | EmptyString => if is_space c then EmptyString else String c EmptyString
      | r => String c r
      end
  end.

(** [s.strip()] *)
Definition strip (s : string) : string := rstrip (PyStr.lstrip is_space s).

(** [s.split(sep)] for a separator of one character: the pieces between
    the separators, empty ones included. *)
Fixpoint split (sep : ascii) (s : string) : list string :=
  match s with
  | EmptyString => [EmptyString]
  | String c s' =>
      if Ascii.eqb c sep then EmptyString :: split sep s'
      else
        match split sep s' with
        | piece :: pieces => String c piece :: pieces
        | [] => [String c EmptyString]
        end
  end.

Definition newline : ascii := ascii_of_nat 10.

(** [[x.strip() for x in text.split('\n') if x.strip()]] *)
Definition nonblank_lines (text : string) : list string :=
  filter (fun x => x ≠ EmptyString) (map strip (split newline text)).

End PyText.

(** A text that does not begin with white space. *)
Definition starts_clean (s : string) : Prop :=
  match s with
  | EmptyString => True
  | String c _ => PyText.is_space c = false
  end.

(** ** Choosing the input (the script below the functions) *)

(** Lines 302 and 310. *)
Definition name_patterns : list string :=
  [ "business name"; "business"; "name"; "company"; "company name"; "client" ].

Definition url_patterns : list string :=
  [ "website url"; "website"; "url"; "web"; "site"; "link"; "webpage" ].

(** Lines 303-306 and 311-314: the first column whose name, lowercased and
    stripped, is one of the patterns; [None] when the loop ends without
    [break]. *)
Fixpoint detect_column (patterns columns : list string) : option string :=
  match columns with
  | [] => None
  | col :: rest =>
      if bool_decide (PyText.strip (PyStr.lower col) ∈ patterns) then Some col
      else detect_column patterns rest
  end.

(** Lines 300-316: the name column and the URL column of an uploaded table,
    when both are detected. *)
Definition detect_columns (columns : list string) : option (string * string) :=
  match detect_column name_patterns columns, detect_column url_patterns columns with
  | Some name_col, Some url_col => Some (name_col, url_col)
  | _, _ => None
  end.

(** Lines 349-357: what the manual tab leaves in [businesses_to_process],
    which holds [from_csv] when the tab is reached. *)
Definition manual_businesses (from_csv : list (string * string))
    (business_names website_urls : string) : list (string * string) :=
  if negb (String.eqb business_names "") && negb (String.eqb website_urls "") then
    let names_list := PyText.nonblank_lines business_names in
    let urls_list := PyText.nonblank_lines website_urls in
    if negb (length names_list =? length urls_list)%nat then from_csv
    else zip names_list urls_list
  else from_csv.

(** ** [show_analytics]: the counts behind the metrics and the coverage chart *)

Module Analytics.

(** [value != 'Not Found'] *)
Definition found (value : string) : bool := negb (String.eqb value NOT_FOUND).

Definition count (p : CrawlResult → bool) (results : list CrawlResult) : nat :=
  length (filter (fun r => p r = true) results).

(** Lines 153-158 and 181. *)
Definition fb_found := count (fun r => found (Facebook r)).
Definition ig_found := count (fun r => found (Instagram r)).
Definition both_found := count (fun r => found (Facebook r) && found (Instagram r)).
Definition neither_found :=
  count (fun r => negb (found (Facebook r)) && negb (found (Instagram r))).
Definition successful := count (fun r => (Status_Code r =? 200)%Z).

(** The sum that the mean of [Pages Crawled] divides by the number of
    results (line 185). *)
Definition total_pages (results : list CrawlResult) : nat :=
  foldr (fun r acc => Pages_Crawled r + acc) 0 results.

(** Lines 195-203, the [Count] column of the coverage chart, for the
    categories Facebook Only, Instagram Only, Both, Neither.  A frame built
    from an empty list has no columns, so that selecting one raises
    [KeyError]. *)
Definition coverage_counts (results : list CrawlResult) : outcome (list Z) :=
  match results with
  | [] => Raise KeyError
  | _ =>
      Ret [ (Z.of_nat (fb_found results) - Z.of_nat (both_found results))%Z;
            (Z.of_nat (ig_found results) - Z.of_nat (both_found results))%Z;
            Z.of_nat (both_found results);
            Z.of_nat (neither_found results) ]
  end.

End Analytics.

(** ** Concrete environments

    A small world to run the crawler in: a table of pages for the network, a
    scanner for anchors written [<a href='...'>], reference resolution for
    absolute URLs and plain paths, and the order of [elements] for sets. *)

Module Demo.
Import PyStr UrlParse.

Definition first_elem (i : nat) (s : gset string) : string :=
  default "" (head (elements s)).

Definition in_order (i : nat) (s : gset string) : list string := elements s.

Lemma first_elem_valid : ∀ i (s : gset string), s ≠ ∅ → first_elem i s ∈ s.
Proof.
  intros i s Hne. unfold first_elem.
  destruct (elements s) as [|x l] eqn:E.
  - apply elements_empty_inv in E. apply leibniz_equiv in E. contradiction.
  - simpl. apply elem_of_elements. rewrite E. left.
Qed.

Lemma in_order_valid : ∀ i (s : gset string), in_order i s ≡ₚ elements s.
Proof. reflexivity. Qed.

(** The network as a table from URL to reply; any other URL cannot be
    reached. *)
Fixpoint lookup_page (site : list (string * http_reply)) (url : string) : http_reply :=
  match site with
  | [] => TransportError
  | (u, r) :: site' => if String.eqb u url then r else lookup_page site' url
  end.

(** The [href] values of the anchors written [<a href='...'>], in document
    order.  [cur] holds the value being read. *)
Fixpoint scan_hrefs (skip : nat) (cur : option string) (s : string) : list string :=
  match s with
  | EmptyString => []
  | String c s' =>
      match skip with
      | S k => scan_hrefs k cur s'
      | O =>
          match cur with
          | Some acc =>
              if Ascii.eqb c "'" then acc :: scan_hrefs 0 None s'
              else scan_hrefs 0 (Some (acc +:+ String c EmptyString)) s'
          | None =>
              if startswith "<a href='" s then scan_hrefs 8 (Some EmptyString) s'
              else scan_hrefs 0 None s'
          end
      end
  end.

(** The path up to and including its last slash. *)
Fixpoint dir_of (path : string) : string :=
  match path with
  | EmptyString => EmptyString
  | String c path' => if has_char "/" path then String c (dir_of path') else EmptyString
  end.

(** [urljoin(base, href)] for a base [http(s)://host/path] and an [href] that
    is an absolute URL, a network-path reference [//host/path], or a path
    without dot segments, empty segments, query or fragment. *)
Definition join (base href : string) : option string :=
  match urlsplit base, urlsplit href with
  | Ret b, Ret h =>
      if negb (String.eqb (scheme h) "") then Some href
      else if negb (String.eqb (netloc h) "") then Some (scheme b +:+ ":" +:+ href)
      else if String.eqb href "" then Some base
      else
        let dir := if startswith "/" href then ""
                   else if String.eqb (dir_of (rest b)) "" then "/"
                   else dir_of (rest b) in
        Some (scheme b +:+ "://" +:+ netloc b +:+ dir +:+ href)
  | _, _ => None
  end.

Definition env (site : list (string * http_reply)) : Env :=
  {| session_get := fun _ url => lookup_page site url;
     anchor_hrefs := scan_hrefs 0 None;
     urljoin := join;
     set_pop := first_elem;
     set_iter := in_order;
     set_pop_elem := first_elem_valid;
     set_iter_perm := in_order_valid |}.

Definition ok (body : string) : http_reply := Response 200 (Some body).

(** A root page linking to a blog page, which carries a relative link and
    a Facebook link. *)
Definition blog_site : list (string * http_reply) :=
  [ ("https://example.com/", ok "<a href='/blog/'>Blog</a>");
    ("https://example.com/blog/",
     ok "<a href='post1'>Post</a> <a href='https://www.facebook.com/acme'>fb</a>") ].

(** A root page with both platforms and an internal link. *)
Definition social_site : list (string * http_reply) :=
  [ ("https://shop.test/",
     ok "<a href='https://instagram.com/shop'>ig</a> <a href='/about'>About</a> <a href='https://m.facebook.com/shop'>fb</a>");
    ("https://shop.test/about", ok "<a href='https://facebook.com/other'>fb2</a>") ].

(** A root page whose only anchor has an [href] that [urljoin] rejects. *)
Definition broken_link_site : list (string * http_reply) :=
  [ ("https://bad.test/", ok "<a href='http://['>x</a>") ].

End Demo.

(** * Properties *)

(** ** The outcome monad *)

Lemma obind_ret {A B : Type} (m : outcome A) (k : A → outcome B) (b : B) :
  obind m k = Ret b → ∃ a, m = Ret a ∧ k a = Ret b.
Proof. destruct m as [a| |]; simpl; intros H; try discriminate. eauto. Qed.

Lemma Ret_inj {A : Type} (a b : A) : Ret a = Ret b → a = b.
Proof. congruence. Qed.

Lemma obind_fuel {A B : Type} (m : outcome A) (k : A → outcome B) :
  m ≠ OutOfFuel → (∀ a, k a ≠ OutOfFuel) → obind m k ≠ OutOfFuel.
Proof. destruct m; simpl; auto; congruence. Qed.

Lemma of_option_fuel {A : Type} (e : exn) (o : option A) : of_option e o ≠ OutOfFuel.
Proof. destruct o; discriminate. Qed.

Lemma for_each_fuel {A S : Type} (body : A → S → outcome S) (xs : list A) :
  (∀ x st, body x st ≠ OutOfFuel) → ∀ st, for_each body xs st ≠ OutOfFuel.
Proof.
  intros Hb. induction xs as [|x xs IH]; intros st; simpl; [discriminate|].
  apply obind_fuel; auto.
Qed.

(** An invariant of the body is an invariant of the loop. *)
Lemma for_each_inv {A S : Type} (P : S → Prop) (body : A → S → outcome S) (xs : list A) :
  (∀ x st st', body x st = Ret st' → P st → P st') →
  ∀ st st', for_each body xs st = Ret st' → P st → P st'.
Proof.
  intros Hb. induction xs as [|x xs IH]; intros st st' H HP; simpl in H.
  - congruence.
  - apply obind_ret in H as (st1 & H1 & H2). eauto.
Qed.

(** ** Strings *)

Lemma str_app_nil (t : string) : EmptyString +:+ t = t.
Proof. reflexivity. Qed.

Lemma str_app_cons (c : ascii) (s t : string) : String c s +:+ t = String c (s +:+ t).
Proof. reflexivity. Qed.

Ltac str_norm := rewrite ?str_app_cons, ?str_app_nil in *.

Lemma startswith_spec (pre hay : string) :
  PyStr.startswith pre hay = true ↔ ∃ post, hay = pre +:+ post.
Proof.
  unfold PyStr.startswith. revert hay.
  induction pre as [|a pre IH]; intros hay; simpl.
  - split; [eauto | intros _; by destruct hay].
  - destruct hay as [|b hay]; simpl.
    + split; [discriminate|]. intros [post H]. str_norm. discriminate.
    + destruct (ascii_dec a b) as [->|Hne].
      * rewrite IH. split; intros [post H]; exists post; str_norm; congruence.
      * split; [discriminate|]. intros [post H]. str_norm. congruence.
Qed.

Lemma contains_nil (needle : string) :
  PyStr.contains needle EmptyString = PyStr.startswith needle EmptyString || false.
Proof. reflexivity. Qed.

Lemma contains_cons (needle : string) (c : ascii) (hay : string) :
  PyStr.contains needle (String c hay)
  = PyStr.startswith needle (String c hay) || PyStr.contains needle hay.
Proof. reflexivity. Qed.

Lemma contains_spec (needle hay : string) :
  PyStr.contains needle hay = true ↔ is_substring needle hay.
Proof.
  unfold is_substring.
  induction hay as [|c hay IH]; [rewrite contains_nil|rewrite contains_cons].
  - rewrite orb_false_r, startswith_spec. split.
    + intros [post H]. exists EmptyString, post. exact H.
    + intros (pre & post & H). destruct pre; str_norm; [|discriminate]. eauto.
  - rewrite orb_true_iff, startswith_spec, IH. split.
    + intros [[post H]|(pre & post & H)].
      * exists EmptyString, post. exact H.
      * exists (String c pre), post. str_norm. congruence.
    + intros (pre & post & H). destruct pre as [|c' pre]; str_norm.
      * left. eauto.
      * right. exists pre, post. congruence.
Qed.

Lemma first_match_some (catalog : list (string * string)) (d p : string) :
  first_match catalog d = Some p →
  ∃ sd, (sd, p) ∈ catalog ∧ is_substring sd d.
Proof.
  induction catalog as [|[sd0 p0] catalog IH]; simpl; [discriminate|].
  destruct (PyStr.contains sd0 d) eqn:E.
  - intros [= <-]. exists sd0. split; [left|]. by apply contains_spec.
  - intros H. destruct (IH H) as (sd & Hin & Hsub). exists sd. split; [by right|done].
Qed.

Lemma first_match_none (catalog : list (string * string)) (d : string) :
  first_match catalog d = None ↔ ∀ sd p, (sd, p) ∈ catalog → ¬ is_substring sd d.
Proof.
  induction catalog as [|[sd0 p0] catalog IH]; simpl.
  - split; [|done]. intros _ sd p Hin. inversion Hin.
  - destruct (PyStr.contains sd0 d) eqn:E.
    + split; [discriminate|]. intros H. exfalso.
      apply (H sd0 p0); [left|]. by apply contains_spec.
    + rewrite IH. split.
      * intros H sd p Hin. inversion Hin; subst; [|eauto].
        rewrite <- contains_spec. congruence.
      * intros H sd p Hin. apply (H sd p). by right.
Qed.

(** ** The classifier *)

Lemma urlsplit_fuel (url : string) : UrlParse.urlsplit url ≠ OutOfFuel.
Proof. unfold UrlParse.urlsplit. repeat case_match; discriminate. Qed.

Lemma urlparse_netloc_fuel (url : string) : UrlParse.urlparse_netloc url ≠ OutOfFuel.
Proof.
  unfold UrlParse.urlparse_netloc. apply obind_fuel; [apply urlsplit_fuel|discriminate].
Qed.

Lemma is_social_link_fuel (url : string) : is_social_link url ≠ OutOfFuel.
Proof.
  unfold is_social_link. apply obind_fuel; [apply urlparse_netloc_fuel|discriminate].
Qed.

(** The platform names the classifier can return. *)
Lemma is_social_link_platform (url p : string) :
  is_social_link url = Ret (Some p) → p = "Facebook" ∨ p = "Instagram".
Proof.
  unfold is_social_link. intros H. apply obind_ret in H as (nl & _ & H).
  injection H as H. repeat case_match; simplify_eq; auto.
Qed.

Lemma not_found_no_platform : is_social_link NOT_FOUND = Ret None.
Proof. reflexivity. Qed.

(** ** Logs *)

Lemma fetched_app (a b : list event) : fetched (a ++ b) = fetched a ++ fetched b.
Proof. induction a as [|[] a IH]; simpl; congruence. Qed.

Lemma found_platforms_app (a b : list event) :
  found_platforms (a ++ b) = found_platforms a ++ found_platforms b.
Proof. induction a as [|[] a IH]; simpl; congruence. Qed.

Lemma elem_of_fetched (u : string) (tr : list event) :
  u ∈ fetched tr ↔ ∃ status, EvFetch u status ∈ tr.
Proof.
  induction tr as [|e tr IH]; simpl.
  - split; [intros H; inversion H | intros [s H]; inversion H].
  - destruct e; rewrite ?elem_of_cons, IH; split;
      try (intros [-> | [s H]]; [eexists; left; reflexivity | exists s; by right]);
      try (intros [s H]; exists s; by right);
      intros [s H]; apply elem_of_cons in H as [H|H]; simplify_eq; eauto.
Qed.

Lemma elem_of_found_platforms (p : string) (tr : list event) :
  p ∈ found_platforms tr ↔ ∃ link, EvFound p link ∈ tr.
Proof.
  induction tr as [|e tr IH]; simpl.
  - split; [intros H; inversion H | intros [s H]; inversion H].
  - destruct e; rewrite ?elem_of_cons, IH; split;
      try (intros [-> | [s H]]; [eexists; left; reflexivity | exists s; by right]);
      try (intros [s H]; exists s; by right);
      intros [s H]; apply elem_of_cons in H as [H|H]; simplify_eq; eauto.
Qed.

Lemma first_status_snoc (tr : list event) (e : event) :
  first_status (tr ++ [e]) =
    match fetched tr, e with
    | [], EvFetch _ status => status
    | _, _ => first_status tr
    end.
Proof.
  induction tr as [|e' tr IH]; simpl.
  - by destruct e.
  - destruct e'; simpl; try done; rewrite IH; by destruct (fetched tr), e.
Qed.

(** Where a log extended by one event can be cut. *)
Lemma snoc_split {A : Type} (tr before after : list A) (e x : A) :
  tr ++ [e] = before ++ x :: after →
  (after = [] ∧ before = tr ∧ x = e)
  ∨ ∃ after', after = after' ++ [e] ∧ tr = before ++ x :: after'.
Proof.
  destruct after as [|y after _] using rev_ind; intros H.
  - left. apply app_inj_tail in H as [-> ->]. done.
  - right. exists after. rewrite app_comm_cons, app_assoc in H.
    apply app_inj_tail in H as [-> ->]. done.
Qed.

Lemma early_snoc_fetch (tr : list event) (url : string) (status : Z) :
  no_fetch_after_all_found tr → ¬ all_found_in tr →
  no_fetch_after_all_found (tr ++ [EvFetch url status]).
Proof.
  intros Htr Hnot before u s after H.
  apply snoc_split in H as [(_ & -> & _)|(after' & _ & ->)]; [done|].
  by eapply Htr.
Qed.

Lemma early_snoc_other (tr : list event) (e : event) :
  (∀ url status, e ≠ EvFetch url status) →
  no_fetch_after_all_found tr → no_fetch_after_all_found (tr ++ [e]).
Proof.
  intros He Htr before u s after H.
  apply snoc_split in H as [(_ & _ & Heq)|(after' & _ & ->)].
  - by destruct (He u s).
  - by eapply Htr.
Qed.

(** ** The steps of the crawl *)

Lemma dict_get_ret (d : gmap string string) (k v : string) :
  dict_get d k = Ret v ↔ d !! k = Some v.
Proof. unfold dict_get. destruct (d !! k); simpl; split; congruence. Qed.

(** [record_social] writes a finding only for a platform still "Not Found",
    and then only a link classified as that platform. *)
Lemma record_social_cases (link : string) (st st' : crawl_state) :
  record_social link st = Ret st' →
  st' = st
  ∨ ∃ p, is_social_link link = Ret (Some p)
         ∧ social_links st !! p = Some NOT_FOUND
         ∧ st' = set_finding p link st.
Proof.
  unfold record_social. intros H.
  apply obind_ret in H as ([p|] & Hc & H); [|left; congruence].
  case_bool_decide; [left; congruence|].
  apply obind_ret in H as (cur & Hcur & H). apply dict_get_ret in Hcur.
  case_bool_decide; [|left; congruence].
  right. exists p. subst cur. split_and!; congruence.
Qed.

(** [enqueue_internal] adds at most the link, and never a visited one. *)
Lemma enqueue_internal_cases (base_domain link : string) (st st' : crawl_state) :
  enqueue_internal base_domain link st = Ret st' →
  st' = st
  ∨ ((link ∉ visited st) ∧ (size (to_visit st) < frontier_cap) ∧ st' = pushed link st).
Proof.
  unfold enqueue_internal, try_except. intros H.
  destruct (UrlParse.urlparse_netloc link) as [nl| |] eqn:E; simpl in H;
    [|left; congruence|discriminate].
  destruct (PyStr.contains base_domain nl && _ && _) eqn:Hc; [|left; congruence].
  right. apply andb_prop in Hc as [Hc Hsz]. apply andb_prop in Hc as [_ Hv].
  apply negb_true_iff, bool_decide_eq_false in Hv. apply Nat.ltb_lt in Hsz.
  split_and!; congruence.
Qed.

Lemma record_social_fuel (link : string) (st : crawl_state) :
  record_social link st ≠ OutOfFuel.
Proof.
  unfold record_social. apply obind_fuel; [apply is_social_link_fuel|].
  intros [p|]; [|discriminate]. case_bool_decide; [discriminate|].
  apply obind_fuel; [apply of_option_fuel|]. intros cur. case_bool_decide; discriminate.
Qed.

Lemma enqueue_internal_fuel (base_domain link : string) (st : crawl_state) :
  enqueue_internal base_domain link st ≠ OutOfFuel.
Proof.
  unfold enqueue_internal, try_except.
  pose proof (urlparse_netloc_fuel link) as Hf.
  destruct (UrlParse.urlparse_netloc link); simpl; [|discriminate|done].
  destruct (_ && _ && _); discriminate.
Qed.

Lemma process_link_fuel (base_domain link : string) (st : crawl_state) :
  process_link base_domain link st ≠ OutOfFuel.
Proof.
  unfold process_link. apply obind_fuel; [apply record_social_fuel|].
  intros st1. apply enqueue_internal_fuel.
Qed.

Lemma extract_links_fuel (env : Env) (html base_url : string) :
  extract_links_from_html env html base_url ≠ OutOfFuel.
Proof.
  unfold extract_links_from_html. apply for_each_fuel. intros a links.
  apply obind_fuel; [apply of_option_fuel|discriminate].
Qed.

Lemma both_found_fuel (sl : gmap string string) : both_found sl ≠ OutOfFuel.
Proof.
  unfold both_found. apply obind_fuel; [apply of_option_fuel|]. intros fb.
  case_bool_decide; [|discriminate].
  apply obind_fuel; [apply of_option_fuel|discriminate].
Qed.

Lemma crawl_step_fuel (env : Env) (base_url base_domain : string) (i : nat)
    (st : crawl_state) :
  crawl_step env base_url base_domain i st ≠ OutOfFuel.
Proof.
  unfold crawl_step. destruct (_ || _); [discriminate|].
  apply obind_fuel; [apply both_found_fuel|]. intros [|]; [discriminate|].
  case_bool_decide; [discriminate|].
  destruct (fetch env i _) as [html status]. case_bool_decide; [discriminate|].
  apply obind_fuel; [apply extract_links_fuel|]. intros links.
  apply obind_fuel; [|discriminate].
  apply for_each_fuel. intros. apply process_link_fuel.
Qed.

(** What [both_found] answers. *)
Lemma both_found_true (sl : gmap string string) :
  both_found sl = Ret true ↔ all_found sl.
Proof.
  unfold both_found, all_found, platforms, dict_get. simpl. split.
  - intros H. apply obind_ret in H as (fb & Hfb & H).
    case_bool_decide; [|discriminate].
    apply obind_ret in H as (ig & Hig & H). injection H as H.
    apply bool_decide_eq_true in H.
    destruct (sl !! "Facebook") eqn:E1; [|discriminate].
    destruct (sl !! "Instagram") eqn:E2; [|discriminate].
    simpl in *. simplify_eq. intros p Hp.
    apply elem_of_cons in Hp as [->|Hp]; [eauto|].
    apply elem_of_cons in Hp as [->|Hp]; [eauto|]. inversion Hp.
  - intros H.
    destruct (H "Facebook") as (fb & -> & Hfb); [set_solver|].
    destruct (H "Instagram") as (ig & -> & Hig); [set_solver|].
    simpl. by rewrite (bool_decide_eq_true_2 _ Hfb), (bool_decide_eq_true_2 _ Hig).
Qed.

(** ** The invariant *)

Section Invariant.
Variable base_url : string.

Lemma inv_init : crawl_inv base_url (init_state base_url).
Proof.
  split; simpl.
  - set_solver.
  - constructor.
  - set_solver.
  - done.
  - unfold max_pages. lia.
  - rewrite dom_insert_L, dom_singleton_L. set_solver.
  - intros p v Hl Hv. exfalso.
    apply lookup_insert_Some in Hl as [[_ <-]|[_ Hl]]; [done|].
    apply lookup_singleton_Some in Hl as [_ <-]. done.
  - intros p v H. inversion H.
  - constructor.
  - intros before u s after H. by destruct before.
  - intros page base H. inversion H.
  - done.
Qed.

Lemma inv_popped (next_url : string) (st : crawl_state) :
  crawl_inv base_url st → crawl_inv base_url (popped next_url st).
Proof. intros []. split; simpl; try done. set_solver. Qed.

Lemma inv_pushed (link : string) (st : crawl_state) :
  crawl_inv base_url st → link ∉ visited st → crawl_inv base_url (pushed link st).
Proof. intros [] Hv. split; simpl; try done. set_solver. Qed.

Lemma inv_mark_fetched (next_url : string) (status : Z) (st : crawl_state) :
  crawl_inv base_url st →
  next_url ∉ visited st → next_url ∉ to_visit st →
  pages_crawled st < max_pages → ¬ all_found_in (trace st) →
  crawl_inv base_url (mark_fetched next_url status st).
Proof.
  intros [Hd Hn Hv Hp Hb Hdom Hc Hl Ho He Hbase Hs] Hnv Hntv Hlt Hnf.
  split; simpl; rewrite ?fetched_app, ?found_platforms_app; simpl;
    rewrite ?app_nil_r; try done.
  - set_solver.
  - apply NoDup_app. split_and!; [done| |apply NoDup_singleton].
    intros u Hu Hu'. apply Hv in Hu. set_solver.
  - intros u. rewrite elem_of_app, Hv. set_solver.
  - rewrite length_app. simpl. lia.
  - intros p v H1 H2. destruct (Hc p v H1 H2). split; [done|].
    apply elem_of_app. by left.
  - intros p v H. apply elem_of_app in H as [H|H]; [by apply Hl|].
    apply elem_of_cons in H as [H|H]; [discriminate|inversion H].
  - by apply early_snoc_fetch.
  - intros page base H. apply elem_of_app in H as [H|H].
    + destruct (Hbase page base H). split; [done|]. apply elem_of_app. by left.
    + apply elem_of_cons in H as [H|H]; [discriminate|inversion H].
  - rewrite first_status_snoc.
    destruct (fetched (trace st)) eqn:E; simpl in Hp; rewrite Hp; simpl; [done|].
    by rewrite Hs.
Qed.

Lemma inv_log_extract (page : string) (st : crawl_state) :
  crawl_inv base_url st → page ∈ fetched (trace st) →
  crawl_inv base_url (log_extract page base_url st).
Proof.
  intros [Hd Hn Hv Hp Hb Hdom Hc Hl Ho He Hbase Hs] Hpage.
  split; simpl; rewrite ?fetched_app, ?found_platforms_app; simpl;
    rewrite ?app_nil_r; try done.
  - intros p v H1 H2. destruct (Hc p v H1 H2). split; [done|].
    apply elem_of_app. by left.
  - intros p v H. apply elem_of_app in H as [H|H]; [by apply Hl|].
    apply elem_of_cons in H as [H|H]; [discriminate|inversion H].
  - by apply early_snoc_other.
  - intros page' base H. apply elem_of_app in H as [H|H]; [by apply Hbase|].
    apply elem_of_cons in H as [H|H]; [by simplify_eq|inversion H].
  - rewrite first_status_snoc. by destruct (fetched (trace st)).
Qed.

Lemma inv_set_finding (p link : string) (st : crawl_state) :
  crawl_inv base_url st →
  is_social_link link = Ret (Some p) → social_links st !! p = Some NOT_FOUND →
  crawl_inv base_url (set_finding p link st).
Proof.
  intros [Hd Hn Hv Hp Hb Hdom Hc Hl Ho He Hbase Hs] Hcl Hcur.
  assert (link ≠ NOT_FOUND) as Hlink.
  { intros ->. rewrite not_found_no_platform in Hcl. discriminate. }
  assert (dom (<[p:=link]> (social_links st)) = dom (social_links st)) as Hdom'.
  { rewrite dom_insert_L.
    assert (p ∈ dom (social_links st)) by (apply elem_of_dom; eauto). set_solver. }
  split; simpl; rewrite ?fetched_app, ?found_platforms_app; simpl;
    rewrite ?app_nil_r; try done.
  - rewrite Hdom'. exact Hdom.
  - intros q v H1 H2. apply lookup_insert_Some in H1 as [[<- <-]|[Hne H1]].
    + split; [done|]. apply elem_of_app. right. left.
    + destruct (Hc q v H1 H2). split; [done|]. apply elem_of_app. by left.
  - intros q v H. apply elem_of_app in H as [H|H].
    + destruct (Hl q v H) as [H1 H2]. split; [|done].
      rewrite lookup_insert_ne; [done|]. intros <-. congruence.
    + apply elem_of_cons in H as [H|H]; [|inversion H]. simplify_eq.
      by rewrite lookup_insert_eq.
  - apply NoDup_app. split_and!; [done| |apply NoDup_singleton].
    intros q Hq Hq'. apply elem_of_cons in Hq' as [->|Hq']; [|inversion Hq'].
    apply elem_of_found_platforms in Hq as [v Hq].
    destruct (Hl p v Hq). congruence.
  - by apply early_snoc_other.
  - intros page base H. apply elem_of_app in H as [H|H]; [by apply Hbase|].
    apply elem_of_cons in H as [H|H]; [discriminate|inversion H].
  - rewrite first_status_snoc. by destruct (fetched (trace st)).
Qed.

Lemma inv_process_link (base_domain link : string) (st st' : crawl_state) :
  process_link base_domain link st = Ret st' →
  crawl_inv base_url st → crawl_inv base_url st'.
Proof.
  unfold process_link. intros H Hinv.
  apply obind_ret in H as (st1 & H1 & H2).
  assert (crawl_inv base_url st1) as Hinv1.
  { apply record_social_cases in H1 as [->|(p & Hcl & Hcur & ->)]; [done|].
    by apply inv_set_finding. }
  apply enqueue_internal_cases in H2 as [->|(Hv & _ & ->)]; [done|].
  by apply inv_pushed.
Qed.

End Invariant.

(** ** One iteration *)

Section Step.
Variable env : Env.
Variables base_url base_domain : string.

Lemma all_found_of_log (st : crawl_state) :
  crawl_inv base_url st → all_found_in (trace st) → all_found (social_links st).
Proof.
  intros Hinv Hall p Hp. destruct (Hall p Hp) as [link Hlink].
  exists link. by apply (inv_log _ _ Hinv).
Qed.

Lemma not_all_found_in (st : crawl_state) :
  crawl_inv base_url st → both_found (social_links st) = Ret false →
  ¬ all_found_in (trace st).
Proof.
  intros Hinv Hbf Hall. apply all_found_of_log, both_found_true in Hall; [|done].
  congruence.
Qed.

Lemma process_link_pages (link : string) (st st' : crawl_state) :
  process_link base_domain link st = Ret st' → pages_crawled st' = pages_crawled st.
Proof.
  unfold process_link. intros H. apply obind_ret in H as (st1 & H1 & H2).
  apply record_social_cases in H1 as [->|(p & _ & _ & ->)];
    apply enqueue_internal_cases in H2 as [->|(_ & _ & ->)]; done.
Qed.

(** The loop condition and the early exit: the step ends the loop exactly
    in the state it was entered in, and only for one of the three reasons. *)
Lemma crawl_step_done (i : nat) (st st' : crawl_state) :
  crawl_step env base_url base_domain i st = Ret (Done st') →
  st' = st ∧ stop_condition st.
Proof.
  unfold crawl_step, stop_condition. intros H.
  destruct (bool_decide (to_visit st = ∅) || _) eqn:Hc.
  - injection H as <-. split; [done|].
    apply orb_prop in Hc as [Hc|Hc].
    + right. right. by apply bool_decide_eq_true in Hc.
    + right. left. apply negb_true_iff, Nat.ltb_ge in Hc. done.
  - apply obind_ret in H as ([|] & Hbf & H).
    + injection H as <-. split; [done|]. left. by apply both_found_true.
    + case_bool_decide; [discriminate|].
      destruct (fetch env i _) as [html status].
      case_bool_decide; [discriminate|].
      apply obind_ret in H as (links & _ & H).
      apply obind_ret in H as (st3 & _ & H). discriminate.
Qed.

(** A step that goes on fetched exactly one more page and kept the
    invariant. *)
Lemma crawl_step_next (i : nat) (st st' : crawl_state) :
  crawl_inv base_url st →
  crawl_step env base_url base_domain i st = Ret (Next st') →
  crawl_inv base_url st'
  ∧ pages_crawled st' = S (pages_crawled st)
  ∧ ¬ stop_condition st.
Proof.
  unfold crawl_step. intros Hinv H.
  destruct (bool_decide (to_visit st = ∅) || _) eqn:Hc; [discriminate|].
  apply orb_false_elim in Hc as [Hne Hlt].
  apply bool_decide_eq_false in Hne. apply negb_false_iff, Nat.ltb_lt in Hlt.
  apply obind_ret in H as ([|] & Hbf & H); [discriminate|].
  assert (¬ stop_condition st) as Hstop.
  { intros [Ha|[Hb|He]]; [|lia|done]. apply both_found_true in Ha. congruence. }
  pose proof (set_pop_elem env i _ Hne) as Hin.
  set (next_url := set_pop env i (to_visit st)) in *.
  pose proof (inv_disjoint _ _ Hinv) as Hdisj.
  case_bool_decide as Hvis; [simpl in Hvis; set_solver|]. simpl in Hvis.
  destruct (fetch env i next_url) as [html status].
  assert (crawl_inv base_url (mark_fetched next_url status (popped next_url st)))
    as Hinv1.
  { apply inv_mark_fetched; simpl; [by apply inv_popped|done|set_solver|done|].
    by apply not_all_found_in. }
  case_bool_decide.
  - injection H as <-. done.
  - apply obind_ret in H as (links & _ & H).
    apply obind_ret in H as (st3 & Hloop & H). injection H as <-.
    pose (P := λ s, crawl_inv base_url s ∧ pages_crawled s = S (pages_crawled st)).
    assert (P st3) as [? ?]; [|done].
    eapply (for_each_inv P); [|exact Hloop|].
    + intros link s s' Hs [Hi Hp]. split; [by eapply inv_process_link|].
      by rewrite (process_link_pages _ _ _ Hs).
    + split; [|done]. apply inv_log_extract; [done|]. simpl.
      rewrite fetched_app. apply elem_of_app. right. simpl. left.
Qed.

Lemma reachable_inv (i : nat) (st : crawl_state) :
  reachable env base_url base_domain i st → crawl_inv base_url st.
Proof.
  induction 1 as [|i st st' _ IH Hstep]; [apply inv_init|].
  by apply (crawl_step_next i st st').
Qed.

(** The loop ends in a reachable state, for one of the three reasons. *)
Lemma crawl_loop_ret (fuel i : nat) (st st' : crawl_state) :
  crawl_loop fuel env base_url base_domain i st = Ret st' →
  reachable env base_url base_domain i st →
  ∃ j, reachable env base_url base_domain j st' ∧ stop_condition st'.
Proof.
  revert i st. induction fuel as [|fuel IH]; intros i st H Hr; [discriminate|].
  simpl in H. apply obind_ret in H as ([st1|st1] & Hstep & H).
  - injection H as <-. apply crawl_step_done in Hstep as [-> Hstop]. eauto.
  - eapply IH; [exact H|]. by eapply reach_next.
Qed.

(** Four unrollings are enough: the loop never runs out of fuel. *)
Lemma crawl_loop_total (fuel i : nat) (st : crawl_state) :
  crawl_inv base_url st → max_pages < fuel + pages_crawled st →
  crawl_loop fuel env base_url base_domain i st ≠ OutOfFuel.
Proof.
  revert i st. induction fuel as [|fuel IH]; intros i st Hinv Hlt.
  - pose proof (inv_budget _ _ Hinv). lia.
  - simpl. pose proof (crawl_step_fuel env base_url base_domain i st) as Hf.
    destruct (crawl_step env base_url base_domain i st) as [[st1|st1]| |] eqn:E;
      simpl; [discriminate| |discriminate|done].
    apply crawl_step_next in E as (Hinv1 & Hp & _); [|done].
    apply IH; [done|lia].
Qed.

End Step.

(** More fuel changes nothing once the loop has ended. *)
Lemma crawl_loop_more_fuel (env : Env) (base_url base_domain : string) :
  ∀ fuel fuel' i st,
    fuel ≤ fuel' →
    crawl_loop fuel env base_url base_domain i st ≠ OutOfFuel →
    crawl_loop fuel' env base_url base_domain i st
    = crawl_loop fuel env base_url base_domain i st.
Proof.
  induction fuel as [|fuel IH]; intros fuel' i st Hle Hne; [done|].
  destruct fuel' as [|fuel']; [lia|]. simpl in *.
  destruct (crawl_step env base_url base_domain i st) as [[st1|st1]| |]; simpl in *;
    try done.
  apply IH; [lia|done].
Qed.

(** Every amount of fuel above [max_pages] gives the same crawl. *)
Lemma crawl_run_fuel_irrelevant (fuel fuel' : nat) (env : Env) (base_url : string) :
  max_pages < fuel → fuel ≤ fuel' →
  crawl_run fuel' env base_url = crawl_run fuel env base_url.
Proof.
  intros Hf Hle. unfold crawl_run.
  destruct (UrlParse.urlparse_netloc base_url) as [d| |]; simpl; try done.
  apply crawl_loop_more_fuel; [done|].
  apply crawl_loop_total; [apply inv_init|simpl; lia].
Qed.

Lemma crawl_run_total (fuel : nat) (env : Env) (base_url : string) :
  max_pages < fuel → crawl_run fuel env base_url ≠ OutOfFuel.
Proof.
  intros Hf. unfold crawl_run. apply obind_fuel; [apply urlparse_netloc_fuel|].
  intros d. apply crawl_loop_total; [apply inv_init|simpl; lia].
Qed.

Lemma result_of_fuel (biz_name base_url : string) (st : crawl_state) :
  result_of biz_name base_url st ≠ OutOfFuel.
Proof.
  unfold result_of. apply obind_fuel; [apply of_option_fuel|]. intros fb.
  apply obind_fuel; [apply of_option_fuel|discriminate].
Qed.

Lemma crawl_site_total (fuel : nat) (env : Env) (base_url biz_name : string) :
  max_pages < fuel → crawl_site fuel env base_url biz_name ≠ OutOfFuel.
Proof.
  intros Hf. unfold crawl_site. apply obind_fuel; [by apply crawl_run_total|].
  intros st. apply result_of_fuel.
Qed.

(** The state a crawl ends in satisfies the invariant and a stop condition. *)
Lemma crawl_run_inv (fuel : nat) (env : Env) (base_url : string) (st : crawl_state) :
  crawl_run fuel env base_url = Ret st →
  crawl_inv base_url st ∧ stop_condition st.
Proof.
  unfold crawl_run. intros H. apply obind_ret in H as (d & _ & H).
  apply crawl_loop_ret in H as (j & Hr & Hstop); [|constructor].
  split; [by eapply reachable_inv|done].
Qed.

(** The state a crawl ends in is one of the states of its loop. *)
Lemma crawl_run_reachable (fuel : nat) (env : Env) (base_url : string) (st : crawl_state) :
  crawl_run fuel env base_url = Ret st →
  ∃ base_domain j, UrlParse.urlparse_netloc base_url = Ret base_domain
                   ∧ reachable env base_url base_domain j st.
Proof.
  unfold crawl_run. intros H. apply obind_ret in H as (d & Hd & H).
  apply crawl_loop_ret in H as (j & Hr & _); [|constructor]. eauto.
Qed.

Lemma crawl_site_ret (fuel : nat) (env : Env) (base_url biz_name : string)
    (r : CrawlResult) :
  crawl_site fuel env base_url biz_name = Ret r →
  ∃ st, crawl_run fuel env base_url = Ret st
        ∧ social_links st !! "Facebook" = Some (Facebook r)
        ∧ social_links st !! "Instagram" = Some (Instagram r)
        ∧ Status_Code r = status_code st
        ∧ Pages_Crawled r = pages_crawled st
        ∧ Business_Name r = biz_name ∧ Website r = base_url.
Proof.
  unfold crawl_site, result_of. intros H.
  apply obind_ret in H as (st & Hrun & H).
  apply obind_ret in H as (fb & Hfb & H). apply obind_ret in H as (ig & Hig & H).
  apply dict_get_ret in Hfb, Hig. injection H as <-. simpl. eauto 10.
Qed.

(** * The claims *)

(** ** The classifier (C3) *)

(** C3, as the code has it.  For every URL that [urlparse] accepts, with
    [nl] the network location of the lowercased URL and [domain] what is left
    of [nl] once every occurrence of [www.] has been removed: the classifier
    returns a platform name exactly when [domain] contains a catalog domain
    as a substring, and [None] exactly when it contains none; the name
    returned belongs to a catalog domain that [domain] contains, Facebook
    taking precedence.  The four URLs of the specification classify as it
    says. *)
Theorem is_social_link_spec :
  (∀ url nl, UrlParse.urlparse_netloc (PyStr.lower url) = Ret nl →
     let domain := PyStr.replace "www." "" nl in
     ((∃ p, is_social_link url = Ret (Some p))
        ↔ ∃ sd p, (sd, p) ∈ SOCIAL_DOMAINS ∧ is_substring sd domain)
     ∧ (is_social_link url = Ret None
        ↔ ∀ sd p, (sd, p) ∈ SOCIAL_DOMAINS → ¬ is_substring sd domain)
     ∧ (∀ p, is_social_link url = Ret (Some p) →
             ∃ sd, (sd, p) ∈ SOCIAL_DOMAINS ∧ is_substring sd domain)
     ∧ (is_social_link url = Ret (Some "Facebook")
        ↔ is_substring "facebook.com" domain))
  ∧ is_social_link "https://www.facebook.com/acme" = Ret (Some "Facebook")
  ∧ is_social_link "https://m.facebook.com/x" = Ret (Some "Facebook")
  ∧ is_social_link "https://notfacebook.com.evil.io" = Ret (Some "Facebook")
  ∧ is_social_link "https://twitter.com/x" = Ret None.
Proof.
  split; [|by vm_compute].
  intros url nl Hnl domain. unfold is_social_link. rewrite Hnl. unfold obind.
  fold domain. split_and!.
  - split.
    + intros [p H]. apply Ret_inj, first_match_some in H as (sd & ? & ?). eauto.
    + intros (sd & p & Hin & Hsub).
      destruct (first_match SOCIAL_DOMAINS domain) as [q|] eqn:E; [eauto|].
      exfalso. eapply first_match_none; eauto.
  - rewrite <- first_match_none. split; congruence.
  - intros p H. by apply Ret_inj, first_match_some in H.
  - rewrite <- contains_spec. unfold SOCIAL_DOMAINS, first_match.
    destruct (PyStr.contains "facebook.com" domain); [done|].
    split; [|done]. destruct (PyStr.contains "instagram.com" domain); discriminate.
Qed.

Lemma is_social_link_spec_witness :
  UrlParse.urlparse_netloc (PyStr.lower "https://WWW.Instagram.com/shop")
    = Ret "www.instagram.com"
  ∧ ∃ sd, (sd, "Instagram") ∈ SOCIAL_DOMAINS ∧ is_substring sd "instagram.com".
Proof.
  split; [reflexivity|].
  apply (proj1 (proj2 (proj2 (proj1 is_social_link_spec
           "https://WWW.Instagram.com/shop" "www.instagram.com" eq_refl)))).
  reflexivity.
Defined.

(** C3 as stated fails: a [www.] inside the host is removed as well, which
    makes a match of a host that contains no catalog domain, and a URL that
    [urlparse] rejects makes the classifier raise. *)
Lemma classify_counterexample :
  spec_classify "https://facewww.book.com/" = None
  ∧ is_social_link "https://facewww.book.com/" = Ret (Some "Facebook")
  ∧ is_social_link "https://facewww.book.com/"
    ≠ Ret (spec_classify "https://facewww.book.com/")
  ∧ is_social_link "http://[" = Raise ValueError.
Proof. split_and!; by vm_compute. Qed.

(** ** The page budget (C4) *)

(** C4.  A crawl never runs out of fuel, and the Crawl Result it returns has
    [Pages Crawled] at most [max_pages], which is 3. *)
Theorem pages_crawled_le_max_pages (fuel : nat) (env : Env) (base_url biz_name : string) :
  max_pages < fuel →
  max_pages = 3
  ∧ crawl_site fuel env base_url biz_name ≠ OutOfFuel
  ∧ ∀ r, crawl_site fuel env base_url biz_name = Ret r → Pages_Crawled r ≤ max_pages.
Proof.
  intros Hf. split_and!; [done|by apply crawl_site_total|].
  intros r Hr. apply crawl_site_ret in Hr as (st & Hrun & _ & _ & _ & -> & _).
  apply crawl_run_inv in Hrun as [Hinv _]. by apply (inv_budget _ _ Hinv).
Qed.

Lemma pages_crawled_le_max_pages_witness :
  ∃ r, crawl_site 4 (Demo.env Demo.blog_site) "https://example.com/" "Example" = Ret r
       ∧ Pages_Crawled r ≤ max_pages.
Proof.
  eexists. split; [vm_compute; reflexivity|].
  apply (pages_crawled_le_max_pages 4 (Demo.env Demo.blog_site)
           "https://example.com/" "Example"); [unfold max_pages; lia|].
  vm_compute. reflexivity.
Defined.

(** ** No page is fetched twice (C5) *)

(** C5.  In every state in which the crawl loop evaluates its condition, the
    URLs fetched so far are pairwise distinct, they are exactly the members
    of [visited], and [to_visit] and [visited] are disjoint; so the URL the
    next iteration pops has not been fetched before. *)
Theorem no_url_fetched_twice (env : Env) (base_url base_domain : string) (i : nat)
    (st : crawl_state) :
  reachable env base_url base_domain i st →
  NoDup (fetched (trace st))
  ∧ (∀ u, u ∈ fetched (trace st) ↔ u ∈ visited st)
  ∧ to_visit st ## visited st
  ∧ (to_visit st ≠ ∅ → set_pop env i (to_visit st) ∉ fetched (trace st)).
Proof.
  intros Hr. apply reachable_inv in Hr as Hinv.
  destruct Hinv as [Hd Hn Hv _ _ _ _ _ _ _ _ _]. split_and!; try done.
  intros Hne Hin. apply Hv in Hin.
  pose proof (set_pop_elem env i _ Hne). set_solver.
Qed.

Lemma no_url_fetched_twice_witness :
  ∃ st, reachable (Demo.env Demo.blog_site) "https://example.com/" "example.com" 2 st
        ∧ fetched (trace st) = ["https://example.com/"; "https://example.com/blog/"]
        ∧ NoDup (fetched (trace st)).
Proof.
  assert (∃ st, reachable (Demo.env Demo.blog_site) "https://example.com/"
                  "example.com" 2 st
                ∧ fetched (trace st)
                  = ["https://example.com/"; "https://example.com/blog/"])
    as (st & Hr & Hf).
  { eexists. split.
    - eapply reach_next; [eapply reach_next; [apply reach_init|]|];
        vm_compute; reflexivity.
    - vm_compute. reflexivity. }
  exists st. split_and!; [done|done|].
  exact (proj1 (no_url_fetched_twice _ _ _ _ _ Hr)).
Defined.

(** ** Early exit (C6) *)

(** C6.  An iteration leaves the loop, in the state it was entered in and so
    without a fetch, exactly when every platform has a finding other than
    "Not Found", or [pages_crawled >= max_pages], or the frontier is empty;
    and in the log of every state of the loop no fetch comes after the point
    where all catalog platforms had been found. *)
Theorem stop_checked_before_fetch (env : Env) (base_url base_domain : string) (i : nat)
    (st : crawl_state) :
  reachable env base_url base_domain i st →
  (stop_condition st ↔ crawl_step env base_url base_domain i st = Ret (Done st))
  ∧ (∀ st', crawl_step env base_url base_domain i st = Ret (Next st') →
            ¬ stop_condition st)
  ∧ no_fetch_after_all_found (trace st).
Proof.
  intros Hr. pose proof (reachable_inv _ _ _ _ _ Hr) as Hinv. split_and!.
  - split; [|intros H; by apply crawl_step_done in H as [_ ?]].
    unfold stop_condition, crawl_step. intros Hstop.
    destruct (bool_decide (to_visit st = ∅) || _) eqn:Hc; [done|].
    apply orb_false_elim in Hc as [Hne Hlt].
    apply bool_decide_eq_false in Hne. apply negb_false_iff, Nat.ltb_lt in Hlt.
    destruct Hstop as [Ha|[Hb|He]]; [|lia|done].
    apply both_found_true in Ha. by rewrite Ha.
  - intros st' Hstep. by apply crawl_step_next in Hstep as (_ & _ & ?).
  - by apply (inv_early _ _ Hinv).
Qed.

Lemma stop_checked_before_fetch_witness :
  ∃ st, reachable (Demo.env Demo.social_site) "https://shop.test/" "shop.test" 1 st
        ∧ size (to_visit st) = 1 ∧ pages_crawled st = 1
        ∧ crawl_step (Demo.env Demo.social_site) "https://shop.test/" "shop.test" 1 st
          = Ret (Done st).
Proof.
  assert (∃ st, reachable (Demo.env Demo.social_site) "https://shop.test/"
                  "shop.test" 1 st
                ∧ size (to_visit st) = 1 ∧ pages_crawled st = 1
                ∧ both_found (social_links st) = Ret true)
    as (st & Hr & Hsz & Hp & Hbf).
  { eexists. split; [eapply reach_next; [apply reach_init|]|];
      vm_compute; done. }
  exists st. split_and!; try done.
  apply (proj1 (stop_checked_before_fetch _ _ _ _ _ Hr)).
  left. by apply both_found_true.
Defined.

(** ** First finding wins (C7) *)



(** ** The first iteration *)

Section FirstStep.
Variable env : Env.
Variables base_url base_domain : string.

Lemma pop_singleton (i : nat) : set_pop env i {[ base_url ]} = base_url.
Proof.
  assert (set_pop env i {[ base_url ]} ∈ ({[ base_url ]} : gset string)) as H.
  { apply set_pop_elem. set_solver. }
  set_solver.
Qed.

Lemma init_not_stopped : ¬ stop_condition (init_state base_url).
Proof.
  intros [Ha|[Hb|He]].
  - destruct (Ha "Facebook") as (v & Hl & Hv); [unfold platforms; set_solver|].
    simpl in Hl. rewrite lookup_insert_eq in Hl. congruence.
  - simpl in Hb. unfold max_pages in Hb. lia.
  - simpl in He. set_solver.
Qed.

Lemma process_link_trace (link : string) (st st' : crawl_state) :
  process_link base_domain link st = Ret st' → ∃ suf, trace st' = trace st ++ suf.
Proof.
  unfold process_link. intros H. apply obind_ret in H as (st1 & H1 & H2).
  apply record_social_cases in H1 as [->|(p & _ & _ & ->)];
    apply enqueue_internal_cases in H2 as [->|(_ & _ & ->)]; simpl;
    first [by exists []; rewrite app_nil_r | by eexists].
Qed.

(** A step that goes on starts by fetching the URL it popped. *)
Lemma crawl_step_fetches (i : nat) (st st' : crawl_state) :
  crawl_inv base_url st →
  crawl_step env base_url base_domain i st = Ret (Next st') →
  let next_url := set_pop env i (to_visit st) in
  ∃ suf, trace st' = trace st ++ EvFetch next_url (fetch env i next_url).2 :: suf.
Proof.
  unfold crawl_step. intros Hinv H.
  destruct (bool_decide (to_visit st = ∅) || _) eqn:Hc; [discriminate|].
  apply orb_false_elim in Hc as [Hne _]. apply bool_decide_eq_false in Hne.
  apply obind_ret in H as ([|] & _ & H); [discriminate|].
  pose proof (set_pop_elem env i _ Hne) as Hin.
  pose proof (inv_disjoint _ _ Hinv) as Hdisj. simpl.
  set (next_url := set_pop env i (to_visit st)) in *.
  case_bool_decide as Hvis; [simpl in Hvis; set_solver|].
  destruct (fetch env i next_url) as [html status]. simpl.
  case_bool_decide.
  - injection H as <-. by exists [].
  - apply obind_ret in H as (links & _ & H).
    apply obind_ret in H as (st3 & Hloop & H). injection H as <-.
    pose (tr1 := trace st ++ [EvFetch next_url status]).
    assert (∃ suf, trace st3 = tr1 ++ suf) as [suf Hsuf].
    { eapply (for_each_inv (λ s, ∃ suf, trace s = tr1 ++ suf)); [|exact Hloop|].
      - intros link s s' Hs [suf Hsuf].
        apply process_link_trace in Hs as [suf' ->]. rewrite Hsuf, <- app_assoc. eauto.
      - simpl. by eexists. }
    exists suf. rewrite Hsuf. unfold tr1. by rewrite <- app_assoc.
Qed.

(** Past the initial state a page has been counted, and the log starts
    with the fetch of the root. *)
Lemma reachable_first_fetch (i : nat) (st : crawl_state) :
  reachable env base_url base_domain i st →
  (i = 0 ∧ st = init_state base_url)
  ∨ (1 ≤ pages_crawled st
     ∧ ∃ suf, trace st = EvFetch base_url (fetch env 0 base_url).2 :: suf).
Proof.
  induction 1 as [|i st st' Hr IH Hstep]; [by left|right].
  pose proof (reachable_inv _ _ _ _ _ Hr) as Hinv.
  pose proof (crawl_step_next _ _ _ _ _ _ Hinv Hstep) as (_ & Hp & _).
  pose proof (crawl_step_fetches _ _ _ Hinv Hstep) as [suf Hsuf].
  split; [lia|]. destruct IH as [[-> ->]|(_ & suf0 & Hs0)].
  - simpl in Hsuf. rewrite pop_singleton in Hsuf. eauto.
  - rewrite Hsuf, Hs0. simpl. eauto.
Qed.

End FirstStep.

(** The state in which a crawl ends has the root's fetch first in its log. *)
Lemma crawl_run_first_fetch (fuel : nat) (env : Env) (base_url : string)
    (st : crawl_state) :
  crawl_run fuel env base_url = Ret st →
  1 ≤ pages_crawled st
  ∧ ∃ suf, trace st = EvFetch base_url (fetch env 0 base_url).2 :: suf.
Proof.
  unfold crawl_run. intros H. apply obind_ret in H as (d & _ & H).
  apply crawl_loop_ret in H as (j & Hr & Hstop); [|constructor].
  apply reachable_first_fetch in Hr as [[_ ->]|?]; [|done].
  by apply init_not_stopped in Hstop.
Qed.


(** ** The status of the first fetch (C8) *)



(** ** A root that is no HTTP(S) URL (C2) *)




(** ** At least one page (C10) *)




(** ** The base URL handed to the extractor (C1) *)

(** Whatever page the body came from, the extractor is given the root URL
    of the crawl as base. *)
Lemma extractor_base_always_root (env : Env) (base_url base_domain : string) (i : nat)
    (st : crawl_state) (page base : string) :
  reachable env base_url base_domain i st →
  EvExtract page base ∈ trace st → base = base_url ∧ page ∈ fetched (trace st).
Proof. intros Hr. apply reachable_inv in Hr. apply (inv_base _ _ Hr). Qed.

(** C1 fails on the code.  The root page of [Demo.blog_site] links to
    [/blog/], and that page carries the relative link [post1].  The body of
    the blog page is handed to the extractor with the root URL as base, not
    with the URL it was fetched from, so the link resolves to
    [https://example.com/post1], which the crawler then fetches, where
    resolution against the page's own URL gives
    [https://example.com/blog/post1]. *)
Theorem extractor_base_is_root_on_subpage :
  (∃ st, crawl_run 4 (Demo.env Demo.blog_site) "https://example.com/" = Ret st
         ∧ trace st
           = [ EvFetch "https://example.com/" 200;
               EvExtract "https://example.com/" "https://example.com/";
               EvFetch "https://example.com/blog/" 200;
               EvExtract "https://example.com/blog/" "https://example.com/";
               EvFound "Facebook" "https://www.facebook.com/acme";
               EvFetch "https://example.com/post1" 0 ])
  ∧ urljoin (Demo.env Demo.blog_site) "https://example.com/" "post1"
    = Some "https://example.com/post1"
  ∧ urljoin (Demo.env Demo.blog_site) "https://example.com/blog/" "post1"
    = Some "https://example.com/blog/post1".
Proof.
  split; [|by vm_compute]. eexists. split; vm_compute; reflexivity.
Qed.

(** ** The batch (C9) *)

Section Batch.
Variable fuel : nat.
Variable envs : nat → Env.
Variable total : nat.

(** When every crawl of the batch returns, there is one result per target,
    in the order of the targets, and each target's crawl is followed by a
    progress call. *)
Lemma process_from_ok (businesses : list (string * string)) :
  ∀ i results ui,
    (∀ k biz_name url, businesses !! k = Some (biz_name, url) →
       ∃ r, crawl_site fuel (envs (i + k)) url biz_name = Ret r) →
    ∃ rs, process_from fuel envs total i businesses results ui
          = (ui ++ ui_events total i businesses, Ret (results ++ rs))
          ∧ length rs = length businesses
          ∧ ∀ k biz_name url, businesses !! k = Some (biz_name, url) →
              ∃ r, rs !! k = Some r
                   ∧ crawl_site fuel (envs (i + k)) url biz_name = Ret r.
Proof.
  induction businesses as [|[biz_name url] rest IH]; intros i results ui Hall.
  - exists []. simpl. rewrite !app_nil_r. split_and!; [done|done|].
    intros k ? ? H. inversion H.
  - destruct (Hall 0 biz_name url eq_refl) as [r Hr].
    rewrite Nat.add_0_r in Hr. simpl. rewrite Hr.
    destruct (IH (S i) (results ++ [r])
                ((ui ++ [StatusText biz_name (i + 1) total]) ++ [Progress (i + 1) total]))
      as (rs & Heq & Hlen & Hrs).
    { intros k n u Hk. destruct (Hall (S k) n u Hk) as [r' Hr'].
      exists r'. by replace (S i + k) with (i + S k) by lia. }
    exists (r :: rs). split_and!.
    + rewrite Heq, <- !app_assoc. done.
    + simpl. by rewrite Hlen.
    + intros [|k] n u Hk; simpl in Hk.
      * injection Hk as <- <-. rewrite Nat.add_0_r. eauto.
      * destruct (Hrs k n u Hk) as (r' & ? & Hr').
        exists r'. split; [done|]. by replace (i + S k) with (S i + k) by lia.
Qed.

End Batch.

Lemma process_websites_ok (fuel : nat) (envs : nat → Env)
    (businesses : list (string * string)) :
  (∀ k biz_name url, businesses !! k = Some (biz_name, url) →
     ∃ r, crawl_site fuel (envs k) url biz_name = Ret r) →
  ∃ rs, process_websites fuel envs businesses
        = (ui_events (length businesses) 0 businesses, Ret rs)
        ∧ length rs = length businesses
        ∧ ∀ k biz_name url, businesses !! k = Some (biz_name, url) →
            ∃ r, rs !! k = Some r
                 ∧ crawl_site fuel (envs k) url biz_name = Ret r
                 ∧ Business_Name r = biz_name ∧ Website r = url.
Proof.
  intros Hall. unfold process_websites.
  destruct (process_from_ok fuel envs (length businesses) businesses 0 [] [] Hall)
    as (rs & Heq & Hlen & Hrs).
  exists rs. split_and!; [done|done|].
  intros k n u Hk. destruct (Hrs k n u Hk) as (r & Hl & Hr). exists r.
  simpl in Hr. split_and!; [done|done| |];
    by apply crawl_site_ret in Hr as (_ & _ & _ & _ & _ & _ & ? & ?).
Qed.

(** C9 fails on the code.  A transport failure is absorbed by [fetch], but
    a [ValueError] of [urlparse] or [urljoin] is caught nowhere on its way
    out of [crawl_site] and [process_websites]: with a root URL that
    [urlparse] rejects as second of three targets the batch raises after the
    first, returns no result, and the third target is never started; and a
    page with one anchor that [urljoin] rejects has the same effect. *)
Theorem batch_aborts_on_rejected_url :
  process_websites 4 (fun _ => Demo.env Demo.blog_site)
    [ ("A", "https://example.com/"); ("B", "http://["); ("C", "https://example.com/") ]
  = ([ StatusText "A" 1 3; Progress 1 3; StatusText "B" 2 3 ], Raise ValueError)
  ∧ process_websites 4 (fun _ => Demo.env (Demo.broken_link_site ++ Demo.blog_site))
      [ ("Bad", "https://bad.test/"); ("A", "https://example.com/") ]
    = ([ StatusText "Bad" 1 2 ], Raise ValueError)
  ∧ process_websites 4 (fun _ => Demo.env Demo.blog_site)
      [ ("Down", "https://down.test/"); ("A", "https://example.com/") ]
    = ([ StatusText "Down" 1 2; Progress 1 2; StatusText "A" 2 2; Progress 2 2 ],
       Ret [ {| Business_Name := "Down";
                Website := "https://down.test/";
                Facebook := "Not Found";
                Instagram := "Not Found";
                Status_Code := 0;
                Pages_Crawled := 1 |};
             {| Business_Name := "A";
                Website := "https://example.com/";
                Facebook := "https://www.facebook.com/acme";
                Instagram := "Not Found";
                Status_Code := 200;
                Pages_Crawled := 3 |} ]).
Proof. by vm_compute. Qed.

(** * Further properties of the code *)

(** ** The link extractor *)

Lemma size_list_to_set_le (l : list string) :
  size (list_to_set l : gset string) ≤ length l.
Proof.
  induction l as [|x l IH]; [by rewrite list_to_set_nil, size_empty|].
  rewrite list_to_set_cons, size_union_alt, size_singleton. simpl length.
  assert (size (list_to_set l ∖ {[x]} : gset string) ≤ size (list_to_set l : gset string))
    by (apply subseteq_size; set_solver).
  lia.
Qed.

(** The loop of [extract_links_from_html] from any set of links collected so
    far: it adds the joined URL of every anchor, or raises at the first
    [href] that [urljoin] rejects. *)
Lemma extract_loop_spec (env : Env) (base_url : string) (hrefs : list string) :
  ∀ acc : gset string,
    for_each
      (fun a links =>
         let* href := of_option ValueError (urljoin env base_url a) in
         Ret (links ∪ {[ href ]}))
      hrefs acc
    = match mapM (urljoin env base_url) hrefs with
      | Some joined => Ret (acc ∪ list_to_set joined)
      | None => Raise ValueError
      end.
Proof.
  induction hrefs as [|a hrefs IH]; intros acc; simpl.
  - f_equal. set_solver.
  - destruct (urljoin env base_url a) as [u|]; simpl; [|done].
    rewrite IH. destruct (mapM (urljoin env base_url) hrefs); simpl; [|done].
    f_equal. set_solver.
Qed.

(** X1.  The extractor returns exactly the set of the URLs
    [urljoin(base_url, href)] of the anchors of the document, so at most as
    many links as there are anchors and none for a document without anchors;
    it raises [ValueError], and returns no link at all, exactly when
    [urljoin] rejects the [href] of some anchor. *)
Theorem extract_links_exact (env : Env) (html base_url : string) :
  (∀ links, extract_links_from_html env html base_url = Ret links →
     (∀ u, u ∈ links ↔ ∃ a, a ∈ anchor_hrefs env html ∧ urljoin env base_url a = Some u)
     ∧ size links ≤ length (anchor_hrefs env html))
  ∧ (extract_links_from_html env html base_url = Raise ValueError
     ↔ ∃ a, a ∈ anchor_hrefs env html ∧ urljoin env base_url a = None)
  ∧ (anchor_hrefs env html = [] → extract_links_from_html env html base_url = Ret ∅)
  ∧ extract_links_from_html env html base_url ≠ Raise KeyError.
Proof.
  unfold extract_links_from_html. rewrite extract_loop_spec.
  destruct (mapM (urljoin env base_url) (anchor_hrefs env html)) as [joined|] eqn:E.
  - pose proof E as Hlen. apply length_mapM in Hlen.
    rewrite mapM_Some in E. split_and!.
    + intros links [= <-]. split.
      * intros u. rewrite elem_of_union, elem_of_list_to_set. split.
        -- intros [H|H]; [set_solver|].
           apply list_elem_of_lookup in H as [k Hk].
           destruct (Forall2_lookup_r _ _ _ _ _ E Hk) as (a & Ha & Hj).
           exists a. split; [|done]. apply list_elem_of_lookup. eauto.
        -- intros (a & Ha & Hj). right.
           apply list_elem_of_lookup in Ha as [k Hk].
           destruct (Forall2_lookup_l _ _ _ _ _ E Hk) as (u' & Hu' & Hj').
           assert (u' = u) as -> by congruence.
           apply list_elem_of_lookup. eauto.
      * rewrite union_empty_l_L, Hlen. apply size_list_to_set_le.
    + split; [discriminate|]. intros (a & Ha & Hj). exfalso.
      apply list_elem_of_lookup in Ha as [k Hk].
      destruct (Forall2_lookup_l _ _ _ _ _ E Hk) as (u' & _ & Hj'). congruence.
    + intros Hnil. rewrite Hnil in E. apply Forall2_nil_inv_l in E as ->.
      first [done | f_equal; set_solver].
    + discriminate.
  - split_and!; [discriminate| |intros Hnil; by rewrite Hnil in E|discriminate].
    split; [intros _|done].
    apply mapM_None in E. apply Exists_exists in E as (a & Ha & Hn).
    exists a. split; [first [done | by apply list_elem_of_In]|done].
Qed.

Lemma extract_links_exact_witness :
  ∃ links,
    extract_links_from_html (Demo.env [])
      "<a href='/about'>a</a> <a href='/about'>b</a> <a href='https://x.test/'>c</a>"
      "https://shop.test/" = Ret links
    ∧ size links ≤ 3
    ∧ "https://shop.test/about" ∈ links.
Proof.
  eexists. split; [vm_compute; reflexivity|].
  match goal with
  | |- context [size ?l] =>
      destruct (proj1 (extract_links_exact (Demo.env [])
        "<a href='/about'>a</a> <a href='/about'>b</a> <a href='https://x.test/'>c</a>"
        "https://shop.test/") l) as [Hin Hsize]; [vm_compute; reflexivity|]
  end.
  split; [exact Hsize|]. apply Hin. exists "/about". split; [|reflexivity].
  vm_compute. left.
Defined.

(** ** The classifier keeps every match *)

Lemma replace_from_cons0 (old new : string) (c : ascii) (s : string) :
  PyStr.replace_from 0 old new (String c s)
  = if PyStr.startswith old (String c s)
    then new +:+ PyStr.replace_from (String.length old - 1) old new s
    else String c (PyStr.replace_from 0 old new s).
Proof. reflexivity. Qed.

Lemma replace_from_consS (k : nat) (old new : string) (c : ascii) (s : string) :
  PyStr.replace_from (S k) old new (String c s) = PyStr.replace_from k old new s.
Proof. reflexivity. Qed.

Lemma is_substring_cons (needle : string) (c : ascii) (s : string) :
  is_substring needle s → is_substring needle (String c s).
Proof. intros (pre & post & ->). by exists (String c pre), post. Qed.

Section ReplaceKeeps.
Variable needle : string.
Hypothesis needle_no_w :
  PyStr.all_chars (fun c => negb (Ascii.eqb c "w")) needle = true.

(** Text without a [w] holds no part of an occurrence of [www.] but a final
    dot, so it is copied as it is. *)
Lemma replace_copies (post : string) :
  PyStr.replace_from 0 "www." "" (needle +:+ post)
  = needle +:+ PyStr.replace_from 0 "www." "" post.
Proof.
  revert needle_no_w. induction needle as [|c n IH]; intros Hw; [done|].
  simpl in Hw. apply andb_prop in Hw as [Hc Hn].
  rewrite !str_app_cons, replace_from_cons0.
  destruct (PyStr.startswith "www." (String c (n +:+ post))) eqn:E.
  - apply startswith_spec in E as [post' E]. str_norm. injection E as -> _.
    discriminate.
  - by rewrite IH.
Qed.

Lemma replace_keeps (c0 : ascii) (n : string) :
  needle = String c0 n → c0 ≠ "."%char →
  ∀ pre post skip, skip ≤ String.length pre →
    is_substring needle
      (PyStr.replace_from skip "www." "" (pre +:+ needle +:+ post)).
Proof.
  intros Hneedle Hdot.
  assert (c0 ≠ "w"%char) as Hw0.
  { intros ->. pose proof needle_no_w as H. rewrite Hneedle in H. discriminate. }
  induction pre as [|c pre IH]; intros post skip Hskip.
  - simpl in Hskip. assert (skip = 0) as -> by lia.
    rewrite str_app_nil, replace_copies. by exists EmptyString, (PyStr.replace_from 0 "www." "" post).
  - rewrite str_app_cons. destruct skip as [|k].
    + rewrite replace_from_cons0.
      destruct (PyStr.startswith "www." _) eqn:E.
      * rewrite str_app_nil. apply IH. simpl.
        apply startswith_spec in E as [post' E]. rewrite Hneedle in E.
        destruct pre as [|c1 [|c2 [|c3 pre]]]; str_norm; simpl;
          [exfalso; congruence..|lia].
      * apply is_substring_cons. apply IH. lia.
    + rewrite replace_from_consS. apply IH. simpl in Hskip. lia.
Qed.

End ReplaceKeeps.

(** Removing every [www.] keeps an occurrence of a catalog domain. *)
Lemma replace_www_keeps_domain (sd p nl : string) :
  (sd, p) ∈ SOCIAL_DOMAINS → is_substring sd nl →
  is_substring sd (PyStr.replace "www." "" nl).
Proof.
  intros Hin (pre & post & ->). unfold PyStr.replace.
  unfold SOCIAL_DOMAINS in Hin.
  apply elem_of_cons in Hin as [[= -> ->]|Hin];
    [|apply elem_of_cons in Hin as [[= -> ->]|Hin]; [|inversion Hin]].
  - eapply (replace_keeps "facebook.com"); [done|reflexivity|discriminate|lia].
  - eapply (replace_keeps "instagram.com"); [done|reflexivity|discriminate|lia].
Qed.

(** X2.  Removing [www.] never loses a match: a URL whose network location,
    lowercased, contains [facebook.com] classifies as Facebook, and one that
    contains any catalog domain classifies as a platform, never as no match. *)
Theorem classifier_keeps_matches (url nl : string) :
  UrlParse.urlparse_netloc (PyStr.lower url) = Ret nl →
  (is_substring "facebook.com" nl → is_social_link url = Ret (Some "Facebook"))
  ∧ (∀ sd p, (sd, p) ∈ SOCIAL_DOMAINS → is_substring sd nl →
       is_social_link url = Ret (Some "Facebook")
       ∨ is_social_link url = Ret (Some "Instagram")).
Proof.
  intros Hnl.
  assert (∀ sd p, (sd, p) ∈ SOCIAL_DOMAINS → is_substring sd nl →
            PyStr.contains sd (PyStr.replace "www." "" nl) = true) as Hkeep.
  { intros sd p Hin Hsub. apply contains_spec. by eapply replace_www_keeps_domain. }
  unfold is_social_link. rewrite Hnl. unfold obind. split.
  - intros Hsub. unfold SOCIAL_DOMAINS, first_match.
    rewrite (Hkeep "facebook.com" "Facebook"); [done| |done].
    unfold SOCIAL_DOMAINS. left.
  - intros sd p Hin Hsub.
    destruct (first_match SOCIAL_DOMAINS (PyStr.replace "www." "" nl)) as [q|] eqn:E.
    + assert (is_social_link url = Ret (Some q)) as Hq.
      { unfold is_social_link. rewrite Hnl. unfold obind. by rewrite E. }
      destruct (is_social_link_platform _ _ Hq) as [-> | ->]; auto.
    + exfalso. rewrite first_match_none in E. apply (E sd p Hin).
      apply contains_spec. eauto.
Qed.

Lemma classifier_keeps_matches_witness :
  is_social_link "https://www.m.facebook.com.www.example/x" = Ret (Some "Facebook").
Proof.
  apply (proj1 (classifier_keeps_matches "https://www.m.facebook.com.www.example/x"
                  "www.m.facebook.com.www.example" eq_refl)).
  exists "www.m.", ".www.example". reflexivity.
Defined.

(** ** More on one iteration of the crawl *)

(** [fetch] hands out a body only with status 200. *)
Lemma fetch_body_200 (env : Env) (i : nat) (url html : string) (status : Z) :
  fetch env i url = (html, status) → html ≠ "" →
  status = 200%Z ∧ session_get env i url = Response 200 (Some html).
Proof.
  unfold fetch. intros H Hne.
  destruct (session_get env i url) as [|s [text|]]; [by simplify_eq| |].
  - destruct (s =? 200)%Z eqn:E.
    + apply Z.eqb_eq in E. injection H as <- <-. by subst.
    + injection H as <- <-. done.
  - destruct (s =? 200)%Z; injection H as <- <-; done.
Qed.

(** As [for_each_inv], for a body that is only known on the members of the
    list. *)
Lemma for_each_inv_in {A S : Type} (P : S → Prop) (body : A → S → outcome S)
    (xs : list A) :
  (∀ x st st', x ∈ xs → body x st = Ret st' → P st → P st') →
  ∀ st st', for_each body xs st = Ret st' → P st → P st'.
Proof.
  induction xs as [|x xs IH]; intros Hb st st' H HP; simpl in H.
  - congruence.
  - apply obind_ret in H as (st1 & H1 & H2).
    eapply IH; [|exact H2|].
    + intros y s s' Hy. apply Hb. by right.
    + eapply Hb; [left|exact H1|done].
Qed.

(** What [enqueue_internal] queues: a link that [urlparse] accepts, whose
    network location contains that of the root, that has not been visited,
    while the frontier holds fewer than [frontier_cap] URLs. *)
Lemma enqueue_internal_pushed (base_domain link : string) (st st' : crawl_state) :
  enqueue_internal base_domain link st = Ret st' →
  st' = st
  ∨ ((∃ nl, UrlParse.urlparse_netloc link = Ret nl ∧ is_substring base_domain nl)
     ∧ (link ∉ visited st) ∧ (size (to_visit st) < frontier_cap)
     ∧ st' = pushed link st).
Proof.
  unfold enqueue_internal, try_except. intros H.
  destruct (UrlParse.urlparse_netloc link) as [nl| |] eqn:E; simpl in H;
    [|left; congruence|discriminate].
  destruct (PyStr.contains base_domain nl && _ && _) eqn:Hc; [|left; congruence].
  right. apply andb_prop in Hc as [Hc Hsz]. apply andb_prop in Hc as [Hsub Hv].
  apply negb_true_iff, bool_decide_eq_false in Hv. apply Nat.ltb_lt in Hsz.
  apply contains_spec in Hsub. split_and!; [eauto|done|done|congruence].
Qed.

Section StepCases.
Variable env : Env.
Variables base_url base_domain : string.

(** The one way in which an iteration goes on: it pops a URL that is new,
    fetches it, and either gets no body, or extracts the links of the body
    against [base_url] and processes each of them. *)
Lemma crawl_step_next_cases (i : nat) (st st' : crawl_state) :
  crawl_inv base_url st →
  crawl_step env base_url base_domain i st = Ret (Next st') →
  let next_url := set_pop env i (to_visit st) in
  next_url ∈ to_visit st ∧ (next_url ∉ visited st)
  ∧ pages_crawled st < max_pages
  ∧ ∃ html status,
      fetch env i next_url = (html, status)
      ∧ ((html = "" ∧ st' = mark_fetched next_url status (popped next_url st))
         ∨ (html ≠ ""
            ∧ ∃ links,
                extract_links_from_html env html base_url = Ret links
                ∧ for_each (process_link base_domain) (set_iter env i links)
                    (log_extract next_url base_url
                       (mark_fetched next_url status (popped next_url st)))
                  = Ret st')).
Proof.
  unfold crawl_step. intros Hinv H.
  destruct (bool_decide (to_visit st = ∅) || _) eqn:Hc; [discriminate|].
  apply orb_false_elim in Hc as [Hne Hlt].
  apply bool_decide_eq_false in Hne. apply negb_false_iff, Nat.ltb_lt in Hlt.
  apply obind_ret in H as ([|] & Hbf & H); [discriminate|].
  pose proof (set_pop_elem env i _ Hne) as Hin.
  pose proof (inv_disjoint _ _ Hinv) as Hdisj. simpl.
  set (next_url := set_pop env i (to_visit st)) in *.
  case_bool_decide as Hvis; [simpl in Hvis; set_solver|]. simpl in Hvis.
  split_and!; [done|done|done|].
  destruct (fetch env i next_url) as [html status]. exists html, status.
  split; [done|]. case_bool_decide as Hhtml.
  - left. by injection H as <-.
  - right. split; [done|].
    apply obind_ret in H as (links & Hlinks & H).
    apply obind_ret in H as (st3 & Hloop & H). injection H as <-. eauto.
Qed.

(** Induction over the states of the loop, one operation at a time. *)
Lemma reachable_ind_ops (P : crawl_state → Prop) :
  P (init_state base_url) →
  (∀ i st next_url status,
     crawl_inv base_url st → P st →
     next_url = set_pop env i (to_visit st) →
     next_url ∈ to_visit st → next_url ∉ visited st →
     pages_crawled st < max_pages →
     status = (fetch env i next_url).2 →
     P (mark_fetched next_url status (popped next_url st))) →
  (∀ i st page,
     crawl_inv base_url st → P st →
     (fetch env i page).1 ≠ "" → (fetch env i page).2 = 200%Z →
     EvFetch page 200 ∈ trace st → page ∈ visited st →
     P (log_extract page base_url st)) →
  (∀ i st page links link,
     crawl_inv base_url st → P st →
     page ∈ visited st →
     extract_links_from_html env (fetch env i page).1 base_url = Ret links →
     (fetch env i page).1 ≠ "" →
     EvExtract page base_url ∈ trace st →
     link ∈ links →
     (∀ p, is_social_link link = Ret (Some p) →
           social_links st !! p = Some NOT_FOUND → P (set_finding p link st))
     ∧ ((∃ nl, UrlParse.urlparse_netloc link = Ret nl ∧ is_substring base_domain nl) →
        link ∉ visited st → size (to_visit st) < frontier_cap →
        P (pushed link st))) →
  ∀ i st, reachable env base_url base_domain i st → P st.
Proof.
  intros Hinit Hfetch Hextract Hlink i st Hr.
  induction Hr as [|i st st' Hr IH Hstep]; [done|].
  pose proof (reachable_inv _ _ _ _ _ Hr) as Hinv.
  destruct (crawl_step_next_cases _ _ _ Hinv Hstep)
    as (Hin & Hnv & Hlt & html & status & Hf & Hcases).
  set (next_url := set_pop env i (to_visit st)) in *.
  assert (status = (fetch env i next_url).2) as Hstatus by (by rewrite Hf).
  assert (html = (fetch env i next_url).1) as Hhtml by (by rewrite Hf).
  set (st1 := mark_fetched next_url status (popped next_url st)).
  assert (P st1) as HP1 by (by eapply Hfetch).
  assert (crawl_inv base_url st1) as Hinv1.
  { apply inv_mark_fetched; simpl;
      [by apply inv_popped|done|set_solver|done|].
    apply (not_all_found_in base_url); [done|].
    unfold crawl_step in Hstep.
    destruct (bool_decide (to_visit st = ∅) || _); [discriminate|].
    apply obind_ret in Hstep as ([|] & Hbf & Hstep); [discriminate|done]. }
  destruct Hcases as [[_ ->]|(Hne & links & Hlinks & Hloop)]; [done|].
  destruct (fetch_body_200 _ _ _ _ _ Hf Hne) as [-> _].
  set (st2 := log_extract next_url base_url st1) in *.
  assert (EvFetch next_url 200 ∈ trace st1) as Hev.
  { simpl. apply elem_of_app. right. left. }
  assert (next_url ∈ visited st1) as Hvis1 by (simpl; set_solver).
  assert (crawl_inv base_url st2) as Hinv2.
  { apply inv_log_extract; [done|]. apply elem_of_fetched. eauto. }
  assert (P st2) as HP2.
  { apply (Hextract i st1 next_url); rewrite <- ?Hhtml, <- ?Hstatus; done. }
  pose (Q := λ s, crawl_inv base_url s ∧ P s ∧ next_url ∈ visited s
                  ∧ EvExtract next_url base_url ∈ trace s).
  assert (Q st') as (_ & ? & _); [|done].
  eapply (for_each_inv_in Q); [|exact Hloop|].
  - intros link s s' Hlink_in Hs (Hi & HPs & Hv & He).
    assert (link ∈ links) as Hmem.
    { apply elem_of_elements. by rewrite <- (set_iter_perm env i links). }
    unfold process_link in Hs. apply obind_ret in Hs as (s1 & H1 & H2).
    assert (Q s1) as (Hi1 & HPs1 & Hv1 & He1).
    { apply record_social_cases in H1 as [->|(p & Hcl & Hcur & ->)]; [done|].
      split_and!; [by apply inv_set_finding| |done|simpl; set_solver].
      eapply (Hlink i s next_url links link); rewrite <- ?Hhtml; eauto. }
    apply enqueue_internal_pushed in H2 as [->|(Hnl & Hnv' & Hsz & ->)]; [done|].
    split_and!; [by apply inv_pushed| |done|done].
    eapply (Hlink i s1 next_url links link); rewrite <- ?Hhtml; eauto.
  - split_and!; [done|done|done|]. simpl. apply elem_of_app. right. left.
Qed.

End StepCases.

(** ** The frontier and the visited set *)

(** X3.  The frontier never holds more than [frontier_cap] (10) URLs when
    the loop condition is evaluated, however many links the pages carry. *)
Theorem frontier_never_exceeds_cap (env : Env) (base_url base_domain : string)
    (i : nat) (st : crawl_state) :
  reachable env base_url base_domain i st →
  size (to_visit st) ≤ frontier_cap ∧ frontier_cap = 10.
Proof.
  intros Hr. split; [|done]. revert i st Hr.
  apply (reachable_ind_ops env base_url base_domain
           (λ s, size (to_visit s) ≤ frontier_cap)).
  - cbn [init_state to_visit]. rewrite size_singleton. unfold frontier_cap. lia.
  - intros i st next_url status _ HP _ _ _ _ _. cbn [mark_fetched popped to_visit].
    etrans; [|exact HP]. apply subseteq_size. set_solver.
  - intros i st page _ HP _ _ _ _. exact HP.
  - intros i st page links link _ HP _ _ _ _ _. split.
    + intros p _ _. exact HP.
    + intros _ _ Hsz. cbn [pushed to_visit]. rewrite size_union_alt.
      assert (size ({[link]} ∖ to_visit st : gset string) ≤ 1).
      { rewrite <- (size_singleton (C:=gset string) link).
        apply subseteq_size. set_solver. }
      lia.
Qed.

Lemma frontier_never_exceeds_cap_witness :
  ∃ st, reachable (Demo.env Demo.social_site) "https://shop.test/" "shop.test" 1 st
        ∧ size (to_visit st) ≤ frontier_cap.
Proof.
  assert (∃ st, reachable (Demo.env Demo.social_site) "https://shop.test/"
                  "shop.test" 1 st) as [st Hr].
  { eexists. eapply reach_next; [apply reach_init|]. vm_compute. reflexivity. }
  exists st. split; [done|].
  exact (proj1 (frontier_never_exceeds_cap _ _ _ _ _ Hr)).
Defined.

Lemma visited_size (base_url : string) (st : crawl_state) :
  crawl_inv base_url st → size (visited st) = pages_crawled st.
Proof.
  intros Hinv.
  assert (visited st = list_to_set (fetched (trace st))) as ->.
  { apply set_eq. intros u. rewrite elem_of_list_to_set.
    symmetry. apply (inv_visited _ _ Hinv). }
  rewrite size_list_to_set by apply (inv_nodup _ _ Hinv).
  symmetry. apply (inv_pages _ _ Hinv).
Qed.

(** X4.  Every iteration that goes on fetches exactly one page that was not
    visited before: when iteration [i] starts, [i] pages have been crawled
    and [visited] has [i] members, so the branch for an already visited URL
    is never taken and the body runs at most [max_pages] times. *)
Theorem one_new_page_per_iteration (env : Env) (base_url base_domain : string)
    (i : nat) (st : crawl_state) :
  reachable env base_url base_domain i st →
  pages_crawled st = i
  ∧ size (visited st) = i
  ∧ i ≤ max_pages
  ∧ (to_visit st ≠ ∅ → set_pop env i (to_visit st) ∉ visited st).
Proof.
  intros Hr. pose proof (reachable_inv _ _ _ _ _ Hr) as Hinv.
  assert (pages_crawled st = i) as Hp.
  { clear Hinv. induction Hr as [|i st st' Hr IH Hstep]; [done|].
    pose proof (reachable_inv _ _ _ _ _ Hr) as Hinv.
    apply crawl_step_next in Hstep as (_ & -> & _); [|done]. by rewrite IH. }
  split_and!; [done| | |].
  - by rewrite (visited_size _ _ Hinv).
  - rewrite <- Hp. apply (inv_budget _ _ Hinv).
  - intros Hne Hin. pose proof (set_pop_elem env i _ Hne).
    pose proof (inv_disjoint _ _ Hinv). set_solver.
Qed.

Lemma one_new_page_per_iteration_witness :
  ∃ st, reachable (Demo.env Demo.blog_site) "https://example.com/" "example.com" 2 st
        ∧ pages_crawled st = 2 ∧ size (visited st) = 2.
Proof.
  assert (∃ st, reachable (Demo.env Demo.blog_site) "https://example.com/"
                  "example.com" 2 st) as [st Hr].
  { eexists. eapply reach_next; [eapply reach_next; [apply reach_init|]|];
      vm_compute; reflexivity. }
  exists st. split; [done|].
  pose proof (one_new_page_per_iteration _ _ _ _ _ Hr) as (? & ? & _). done.
Defined.

(** X5.  The crawl stays on the site: every URL in the frontier and every
    URL fetched is the root URL, or a URL that [urlparse] accepts and whose
    network location contains the network location of the root as a
    substring. *)
Theorem crawl_stays_in_scope (env : Env) (base_url base_domain : string)
    (i : nat) (st : crawl_state) :
  reachable env base_url base_domain i st →
  (∀ u, u ∈ to_visit st → in_scope base_url base_domain u)
  ∧ (∀ u, u ∈ fetched (trace st) → in_scope base_url base_domain u).
Proof.
  intros Hr. pose proof (reachable_inv _ _ _ _ _ Hr) as Hinv.
  assert (∀ u, u ∈ to_visit st ∪ visited st → in_scope base_url base_domain u) as H.
  { revert i st Hr Hinv.
    refine (λ i st Hr _, reachable_ind_ops env base_url base_domain
             (λ s, ∀ u, u ∈ to_visit s ∪ visited s → in_scope base_url base_domain u)
             _ _ _ _ i st Hr).
    - simpl. intros u Hu. left. set_solver.
    - intros j s next_url status _ HP _ Hin _ _ _ u Hu. simpl in Hu.
      apply HP. set_solver.
    - intros j s page _ HP _ _ _ _. exact HP.
    - intros j s page links link _ HP _ _ _ _ _. split.
      + intros p _ _. exact HP.
      + intros Hnl _ _ u Hu. simpl in Hu.
        destruct (decide (u = link)) as [->|Hne]; [by right|].
        apply HP. set_solver. }
  split.
  - intros u Hu. apply H. set_solver.
  - intros u Hu. apply H. apply (inv_visited _ _ Hinv) in Hu. set_solver.
Qed.

Lemma crawl_stays_in_scope_witness :
  ∃ st, reachable (Demo.env Demo.social_site) "https://shop.test/" "shop.test" 1 st
        ∧ to_visit st = {[ "https://shop.test/about" ]}
        ∧ in_scope "https://shop.test/" "shop.test" "https://shop.test/about".
Proof.
  assert (∃ st, reachable (Demo.env Demo.social_site) "https://shop.test/"
                  "shop.test" 1 st
                ∧ to_visit st = {[ "https://shop.test/about" ]}) as (st & Hr & Htv).
  { eexists. split; [eapply reach_next; [apply reach_init|]|];
      vm_compute; reflexivity. }
  exists st. split_and!; [done|done|].
  apply (proj1 (crawl_stays_in_scope _ _ _ _ _ Hr)). rewrite Htv. set_solver.
Defined.

(** ** Where findings and queued URLs come from *)

Lemma extracted_mono (env : Env) (base_url : string) (st st' : crawl_state) (v : string) :
  visited st ⊆ visited st' →
  extracted_from_visited env base_url st v → extracted_from_visited env base_url st' v.
Proof.
  intros Hsub (i & page & links & Hp & H). exists i, page, links.
  split; [set_solver|done].
Qed.

(** An extracted link is the joined [href] of an anchor in a body that
    arrived with status 200. *)
Lemma extracted_anchor (env : Env) (base_url : string) (st : crawl_state) (v : string) :
  extracted_from_visited env base_url st v →
  ∃ i page html a,
    page ∈ visited st
    ∧ session_get env i page = Response 200 (Some html)
    ∧ a ∈ anchor_hrefs env html
    ∧ urljoin env base_url a = Some v.
Proof.
  intros (i & page & links & Hp & Hne & _ & Hlinks & Hv).
  destruct (fetch env i page) as [html status] eqn:Hf. simpl in *.
  destruct (fetch_body_200 _ _ _ _ _ Hf Hne) as [_ Hget].
  destruct (proj1 (extract_links_exact env html base_url) links Hlinks) as [Hin _].
  apply Hin in Hv as (a & Ha & Hj). exists i, page, html, a. done.
Qed.

Lemma provenance_inv (env : Env) (base_url base_domain : string) (i : nat)
    (st : crawl_state) :
  reachable env base_url base_domain i st →
  (∀ u, u ∈ to_visit st ∪ visited st →
        u = base_url ∨ extracted_from_visited env base_url st u)
  ∧ (∀ p v, social_links st !! p = Some v → v ≠ NOT_FOUND →
            extracted_from_visited env base_url st v).
Proof.
  revert i st.
  apply (reachable_ind_ops env base_url base_domain
    (λ s, (∀ u, u ∈ to_visit s ∪ visited s →
                u = base_url ∨ extracted_from_visited env base_url s u)
          ∧ (∀ p v, social_links s !! p = Some v → v ≠ NOT_FOUND →
                    extracted_from_visited env base_url s v))).
  - split.
    + intros u Hu. left. cbn [init_state to_visit visited] in Hu. set_solver.
    + intros p v Hl Hv. exfalso. cbn [init_state social_links] in Hl.
      apply lookup_insert_Some in Hl as [[_ <-]|[_ Hl]]; [done|].
      apply lookup_singleton_Some in Hl as [_ <-]. done.
  - intros j s next_url status _ [HP1 HP2] _ Hin _ _ _.
    assert (visited s ⊆ visited (mark_fetched next_url status (popped next_url s)))
      as Hsub by (simpl; set_solver).
    split.
    + intros u Hu. simpl in Hu.
      destruct (HP1 u) as [?|?]; [set_solver|by left|right].
      by eapply extracted_mono.
    + intros p v Hl Hv. eapply extracted_mono; [done|]. by eapply HP2.
  - intros j s page _ HP _ _ _ _. exact HP.
  - intros j s page links link _ [HP1 HP2] Hpage Hlinks Hne _ Hmem.
    assert ((fetch env j page).2 = 200%Z) as H200.
    { destruct (fetch env j page) as [html status] eqn:Hf. simpl in *.
      by destruct (fetch_body_200 _ _ _ _ _ Hf Hne). }
    assert (∀ s', visited s' = visited s →
                  extracted_from_visited env base_url s' link) as Hex.
    { intros s' Hs'. exists j, page, links. rewrite Hs'. done. }
    split.
    + intros p _ _. split.
      * intros u Hu. simpl in Hu. destruct (HP1 u Hu) as [?|?]; [by left|right].
        by eapply extracted_mono.
      * intros q v Hl Hv. simpl in Hl.
        apply lookup_insert_Some in Hl as [[<- <-]|[_ Hl]]; [by apply Hex|].
        eapply extracted_mono; [|by eapply HP2]. done.
    + intros _ _ _. split.
      * intros u Hu. simpl in Hu.
        destruct (decide (u = link)) as [->|Hn]; [right; by apply Hex|].
        destruct (HP1 u) as [?|?]; [set_solver|by left|right].
        by eapply extracted_mono.
      * intros q v Hl Hv. eapply extracted_mono; [|by eapply HP2]. done.
Qed.

(** X6.  Nothing is made up: a finding other than "Not Found" in a returned
    Crawl Result is [urljoin(base_url, href)] for the [href] of an anchor in
    the body of a page that this crawl fetched and that answered with status
    200; and so is every fetched URL but the root. *)
Theorem findings_come_from_fetched_pages (fuel : nat) (env : Env)
    (base_url biz_name : string) (r : CrawlResult) :
  crawl_site fuel env base_url biz_name = Ret r →
  ∃ st, crawl_run fuel env base_url = Ret st
    ∧ (∀ v, (v = Facebook r ∨ v = Instagram r) → v ≠ NOT_FOUND →
         ∃ i page html a,
           page ∈ fetched (trace st)
           ∧ session_get env i page = Response 200 (Some html)
           ∧ a ∈ anchor_hrefs env html
           ∧ urljoin env base_url a = Some v)
    ∧ (∀ u, u ∈ fetched (trace st) → u ≠ base_url →
         ∃ i page html a,
           page ∈ fetched (trace st)
           ∧ session_get env i page = Response 200 (Some html)
           ∧ a ∈ anchor_hrefs env html
           ∧ urljoin env base_url a = Some u).
Proof.
  intros Hr. apply crawl_site_ret in Hr as (st & Hrun & Hfb & Hig & _).
  exists st. split; [done|].
  destruct (crawl_run_reachable _ _ _ _ Hrun) as (d & j & _ & Hreach).
  pose proof (reachable_inv _ _ _ _ _ Hreach) as Hinv.
  destruct (provenance_inv _ _ _ _ _ Hreach) as [HP1 HP2].
  assert (∀ v, extracted_from_visited env base_url st v →
            ∃ i page html a,
              page ∈ fetched (trace st)
              ∧ session_get env i page = Response 200 (Some html)
              ∧ a ∈ anchor_hrefs env html
              ∧ urljoin env base_url a = Some v) as Hanchor.
  { intros v Hv. apply extracted_anchor in Hv as (i & page & html & a & Hp & H).
    exists i, page, html, a. split; [by apply (inv_visited _ _ Hinv)|done]. }
  split.
  - intros v [-> | ->] Hv; apply Hanchor; eapply HP2; eauto.
  - intros u Hu Hne. apply Hanchor.
    destruct (HP1 u) as [?|?]; [|done|done].
    apply (inv_visited _ _ Hinv) in Hu. set_solver.
Qed.

Lemma findings_come_from_fetched_pages_witness :
  ∃ i page html a,
    session_get (Demo.env Demo.blog_site) i page = Response 200 (Some html)
    ∧ a ∈ anchor_hrefs (Demo.env Demo.blog_site) html
    ∧ urljoin (Demo.env Demo.blog_site) "https://example.com/" a
      = Some "https://www.facebook.com/acme".
Proof.
  destruct (findings_come_from_fetched_pages 4 (Demo.env Demo.blog_site)
              "https://example.com/" "Example"
              {| Business_Name := "Example";
                 Website := "https://example.com/";
                 Facebook := "https://www.facebook.com/acme";
                 Instagram := "Not Found";
                 Status_Code := 200;
                 Pages_Crawled := 3 |})
    as (st & _ & Hfind & _); [vm_compute; reflexivity|].
  destruct (Hfind "https://www.facebook.com/acme") as (i & page & html & a & _ & H);
    [by left|discriminate|].
  exists i, page, html, a. exact H.
Defined.

(** ** A root without a body *)

Lemma crawl_site_no_body (fuel : nat) (env : Env) (base_url biz_name d : string) :
  UrlParse.urlparse_netloc base_url = Ret d →
  (fetch env 0 base_url).1 = "" →
  crawl_site (S (S fuel)) env base_url biz_name
  = Ret {| Business_Name := biz_name;
           Website := base_url;
           Facebook := NOT_FOUND;
           Instagram := NOT_FOUND;
           Status_Code := (fetch env 0 base_url).2;
           Pages_Crawled := 1 |}.
Proof.
  intros Hd Hbody. unfold crawl_site, crawl_run. rewrite Hd. unfold obind at 2.
  set (st1 := mark_fetched base_url (fetch env 0 base_url).2
                (popped base_url (init_state base_url))).
  assert (crawl_step env base_url d 0 (init_state base_url) = Ret (Next st1)) as Hstep0.
  { unfold crawl_step. simpl to_visit. simpl pages_crawled. simpl social_links.
    rewrite bool_decide_eq_false_2 by set_solver. simpl.
    rewrite pop_singleton. rewrite bool_decide_eq_false_2 by set_solver.
    destruct (fetch env 0 base_url) as [html status]. simpl in *. subst html.
    by rewrite bool_decide_eq_true_2. }
  assert (crawl_step env base_url d 1 st1 = Ret (Done st1)) as Hstep1.
  { unfold crawl_step. simpl to_visit.
    by rewrite bool_decide_eq_true_2 by set_solver. }
  cbn [crawl_loop]. rewrite Hstep0. unfold obind at 2. rewrite Hstep1. reflexivity.
Qed.

(** X7.  When the root answers without a usable body (a status other than
    200, an empty or undecodable body, or no answer at all), the crawl ends
    after this one page: the result carries the root's status, one page
    crawled and both findings "Not Found", whatever links the error page
    holds. *)
Theorem root_without_body_ends_crawl (fuel : nat) (env : Env)
    (base_url biz_name d : string) :
  UrlParse.urlparse_netloc base_url = Ret d →
  (∀ html, session_get env 0 base_url = Response 200 (Some html) → html = "") →
  2 ≤ fuel →
  crawl_site fuel env base_url biz_name
  = Ret {| Business_Name := biz_name;
           Website := base_url;
           Facebook := "Not Found";
           Instagram := "Not Found";
           Status_Code := (fetch env 0 base_url).2;
           Pages_Crawled := 1 |}.
Proof.
  intros Hd Hget Hf. destruct fuel as [|[|fuel]]; [lia|lia|].
  apply (crawl_site_no_body fuel env base_url biz_name d Hd).
  destruct (fetch env 0 base_url) as [html status] eqn:E. simpl.
  destruct (decide (html = "")) as [|Hne]; [done|].
  destruct (fetch_body_200 _ _ _ _ _ E Hne) as [_ H]. by apply Hget.
Qed.

Lemma root_without_body_ends_crawl_witness :
  crawl_site 4
    (Demo.env [("https://gone.test/",
                Response 404 (Some "<a href='https://facebook.com/gone'>fb</a>"))])
    "https://gone.test/" "Gone"
  = Ret {| Business_Name := "Gone";
           Website := "https://gone.test/";
           Facebook := "Not Found";
           Instagram := "Not Found";
           Status_Code := 404;
           Pages_Crawled := 1 |}.
Proof.
  assert (∀ html,
            session_get
              (Demo.env [("https://gone.test/",
                          Response 404 (Some "<a href='https://facebook.com/gone'>fb</a>"))])
              0 "https://gone.test/" = Response 200 (Some html) → html = "") as Hget.
  { intros html H. vm_compute in H. discriminate. }
  exact (root_without_body_ends_crawl 4 _ "https://gone.test/" "Gone" "gone.test"
           eq_refl Hget (le_S _ _ (le_S _ _ (le_n 2)))).
Defined.

(** ** Why a crawl ends *)

(** X8.  A crawl that returns with fewer than [max_pages] pages crawled has
    either found both platforms or run out of URLs to visit. *)
Theorem short_crawl_found_all_or_ran_dry (fuel : nat) (env : Env)
    (base_url biz_name : string) (r : CrawlResult) :
  crawl_site fuel env base_url biz_name = Ret r →
  Pages_Crawled r < max_pages →
  (Facebook r ≠ NOT_FOUND ∧ Instagram r ≠ NOT_FOUND)
  ∨ ∃ st, crawl_run fuel env base_url = Ret st ∧ to_visit st = ∅.
Proof.
  intros Hr Hlt. apply crawl_site_ret in Hr as (st & Hrun & Hfb & Hig & _ & Hp & _).
  destruct (crawl_run_inv _ _ _ _ Hrun) as [_ [Ha|[Hb|He]]].
  - left. unfold all_found, platforms in Ha. simpl in Ha.
    destruct (Ha "Facebook") as (v1 & H1 & ?); [set_solver|].
    destruct (Ha "Instagram") as (v2 & H2 & ?); [set_solver|].
    split; congruence.
  - lia.
  - right. eauto.
Qed.

Lemma short_crawl_found_all_or_ran_dry_witness :
  ∃ r, crawl_site 4 (Demo.env Demo.social_site) "https://shop.test/" "Shop" = Ret r
       ∧ Pages_Crawled r = 1
       ∧ ((Facebook r ≠ NOT_FOUND ∧ Instagram r ≠ NOT_FOUND)
          ∨ ∃ st, crawl_run 4 (Demo.env Demo.social_site) "https://shop.test/" = Ret st
                  ∧ to_visit st = ∅).
Proof.
  eexists. split; [vm_compute; reflexivity|]. split; [reflexivity|].
  apply (short_crawl_found_all_or_ran_dry 4 (Demo.env Demo.social_site)
           "https://shop.test/" "Shop"); [vm_compute; reflexivity|].
  simpl. unfold max_pages. lia.
Defined.

(** ** The batch, target by target *)

Section BatchMore.
Variable fuel : nat.
Variable envs : nat → Env.
Variable total : nat.

(** Targets whose crawls return are passed one after the other. *)
Lemma process_from_prefix (before rest : list (string * string)) :
  ∀ i results ui,
    (∀ k biz_name url, before !! k = Some (biz_name, url) →
       ∃ r, crawl_site fuel (envs (i + k)) url biz_name = Ret r) →
    ∃ rs, length rs = length before
          ∧ process_from fuel envs total i (before ++ rest) results ui
            = process_from fuel envs total (i + length before) rest (results ++ rs)
                (ui ++ ui_events total i before).
Proof.
  induction before as [|[biz_name url] before IH]; intros i results ui Hall.
  - exists []. simpl. by rewrite !app_nil_r, Nat.add_0_r.
  - destruct (Hall 0 biz_name url eq_refl) as [r Hr].
    rewrite Nat.add_0_r in Hr. simpl. rewrite Hr.
    destruct (IH (S i) (results ++ [r])
                ((ui ++ [StatusText biz_name (i + 1) total]) ++ [Progress (i + 1) total]))
      as (rs & Hlen & Heq).
    { intros k n u Hk. destruct (Hall (S k) n u Hk) as [r' Hr'].
      exists r'. by replace (S i + k) with (i + S k) by lia. }
    exists (r :: rs). split; [simpl; by rewrite Hlen|].
    rewrite Heq, <- !app_assoc. simpl.
    by rewrite ?Nat.add_succ_r.
Qed.

(** A batch that returns has passed every one of its crawls. *)
Lemma process_from_ret (businesses : list (string * string)) :
  ∀ i results ui ui' rs',
    process_from fuel envs total i businesses results ui = (ui', Ret rs') →
    ∀ k biz_name url, businesses !! k = Some (biz_name, url) →
      ∃ r, crawl_site fuel (envs (i + k)) url biz_name = Ret r.
Proof.
  induction businesses as [|[n u] rest IH]; intros i results ui ui' rs' H k bn url Hk.
  - inversion Hk.
  - simpl in H. destruct (crawl_site fuel (envs i) u n) as [r| |] eqn:E;
      [|discriminate..].
    destruct k as [|k]; simpl in Hk.
    + injection Hk as <- <-. rewrite Nat.add_0_r. eauto.
    + replace (i + S k) with (S i + k) by lia. eapply IH; eauto.
Qed.

End BatchMore.

(** X9.  A batch returns exactly when every crawl in it returns; its list
    then has one result per target, in the order of the targets, each
    carrying the name and URL of its target, and the widget calls are a
    status text before and a progress call after each target, the last one
    reporting [n/n]. *)
Theorem batch_results_in_order (fuel : nat) (envs : nat → Env)
    (businesses : list (string * string)) :
  ((∀ k biz_name url, businesses !! k = Some (biz_name, url) →
      ∃ r, crawl_site fuel (envs k) url biz_name = Ret r)
   ↔ ∃ ui rs, process_websites fuel envs businesses = (ui, Ret rs))
  ∧ ∀ ui rs, process_websites fuel envs businesses = (ui, Ret rs) →
      length rs = length businesses
      ∧ ui = ui_events (length businesses) 0 businesses
      ∧ map Business_Name rs = map fst businesses
      ∧ map Website rs = map snd businesses
      ∧ ∀ k biz_name url, businesses !! k = Some (biz_name, url) →
          ∃ r, rs !! k = Some r ∧ crawl_site fuel (envs k) url biz_name = Ret r.
Proof.
  assert (∀ ui rs, process_websites fuel envs businesses = (ui, Ret rs) →
            ∀ k biz_name url, businesses !! k = Some (biz_name, url) →
              ∃ r, crawl_site fuel (envs k) url biz_name = Ret r) as Hret.
  { intros ui rs H k n u Hk.
    apply (process_from_ret fuel envs _ _ _ _ _ _ _ H k n u Hk). }
  split.
  - split.
    + intros Hall. destruct (process_websites_ok _ _ _ Hall) as (rs & Heq & _). eauto.
    + intros (ui & rs & H). by eapply Hret.
  - intros ui rs H.
    destruct (process_websites_ok _ _ _ (Hret ui rs H)) as (rs0 & Heq & Hlen & Hrs).
    rewrite Heq in H. injection H as <- <-.
    assert (∀ k, (Business_Name <$> rs0) !! k = (fst <$> businesses) !! k
                 ∧ (Website <$> rs0) !! k = (snd <$> businesses) !! k) as Hmaps.
    { intros k. rewrite !list_lookup_fmap.
      destruct (businesses !! k) as [[n u]|] eqn:Ek.
      - destruct (Hrs k n u Ek) as (r & -> & _ & <- & <-). done.
      - apply lookup_ge_None in Ek. rewrite <- Hlen in Ek.
        apply lookup_ge_None in Ek. by rewrite Ek. }
    split_and!; [done|done| | |].
    + apply list_eq. intros k. apply Hmaps.
    + apply list_eq. intros k. apply Hmaps.
    + intros k n u Hk. destruct (Hrs k n u Hk) as (r & ? & ? & _). eauto.
Qed.

Lemma batch_results_in_order_witness :
  ∃ ui rs,
    process_websites 4 (fun _ => Demo.env Demo.blog_site)
      [ ("Down", "https://down.test/"); ("A", "https://example.com/") ] = (ui, Ret rs)
    ∧ length rs = 2
    ∧ map Business_Name rs = ["Down"; "A"]
    ∧ ui = [ StatusText "Down" 1 2; Progress 1 2; StatusText "A" 2 2; Progress 2 2 ].
Proof.
  eexists _, _. split; [vm_compute; reflexivity|].
  match goal with
  | |- context [length ?rs] =>
      pose proof (proj2 (batch_results_in_order 4 (fun _ => Demo.env Demo.blog_site)
                [ ("Down", "https://down.test/"); ("A", "https://example.com/") ])
              [ StatusText "Down" 1 2; Progress 1 2; StatusText "A" 2 2; Progress 2 2 ] rs)
        as H
  end.
  destruct H as (Hlen & Hui & Hnames & _); [vm_compute; reflexivity|].
  split_and!; [exact Hlen|exact Hnames|reflexivity].
Defined.

(** X10.  The batch stops at the first target whose crawl raises: the
    exception leaves [process_websites], the results of the targets before
    it are not returned, and the last widget call is the status text of the
    failing target, so no later target is started. *)
Theorem batch_stops_at_first_raise (fuel : nat) (envs : nat → Env)
    (before after : list (string * string)) (biz_name url : string) (e : exn) :
  (∀ k n u, before !! k = Some (n, u) → ∃ r, crawl_site fuel (envs k) u n = Ret r) →
  crawl_site fuel (envs (length before)) url biz_name = Raise e →
  process_websites fuel envs (before ++ (biz_name, url) :: after)
  = (ui_events (length (before ++ (biz_name, url) :: after)) 0 before
       ++ [StatusText biz_name (length before + 1)
             (length (before ++ (biz_name, url) :: after))],
     Raise e).
Proof.
  intros Hall Hraise. unfold process_websites.
  destruct (process_from_prefix fuel envs
              (length (before ++ (biz_name, url) :: after))
              before ((biz_name, url) :: after) 0 [] [] Hall) as (rs & _ & Heq).
  rewrite Heq. simpl. by rewrite Hraise.
Qed.

Lemma batch_stops_at_first_raise_witness :
  process_websites 4 (fun _ => Demo.env Demo.blog_site)
    ([("A", "https://example.com/")] ++ ("B", "http://[") :: [("C", "https://example.com/")])
  = ([StatusText "A" 1 3; Progress 1 3; StatusText "B" 2 3], Raise ValueError).
Proof.
  apply (batch_stops_at_first_raise 4 (fun _ => Demo.env Demo.blog_site)
           [("A", "https://example.com/")] [("C", "https://example.com/")]
           "B" "http://[" ValueError).
  - intros [|k] n u Hk; simpl in Hk; [|inversion Hk].
    injection Hk as <- <-. eexists. vm_compute. reflexivity.
  - reflexivity.
Defined.

(** ** The analytics counts *)

Lemma count_cons (p : CrawlResult → bool) (r : CrawlResult) (rs : list CrawlResult) :
  Analytics.count p (r :: rs) = (if p r then 1 else 0) + Analytics.count p rs.
Proof.
  unfold Analytics.count. rewrite filter_cons.
  destruct (p r); case_decide; simpl; congruence.
Qed.

Lemma count_le_length (p : CrawlResult → bool) (rs : list CrawlResult) :
  Analytics.count p rs ≤ length rs.
Proof.
  induction rs as [|r rs IH]; [done|].
  rewrite count_cons. simpl. destruct (p r); lia.
Qed.

Lemma coverage_sum (rs : list CrawlResult) :
  Analytics.fb_found rs + Analytics.ig_found rs + Analytics.neither_found rs
  = length rs + Analytics.both_found rs
  ∧ Analytics.both_found rs ≤ Analytics.fb_found rs
  ∧ Analytics.both_found rs ≤ Analytics.ig_found rs.
Proof.
  unfold Analytics.fb_found, Analytics.ig_found, Analytics.neither_found,
    Analytics.both_found.
  induction rs as [|r rs (IH1 & IH2 & IH3)]; [done|].
  rewrite !count_cons. simpl length.
  destruct (Analytics.found (Facebook r)), (Analytics.found (Instagram r)); simpl; lia.
Qed.

(** X11.  The four bars of the coverage chart partition a non-empty list
    of results: the counts for Facebook Only, Instagram Only, Both and
    Neither are never negative and add up to the number of results; the
    count of results with status 200 is at most that number; and for an
    empty list the counts cannot be taken ([KeyError]). *)
Theorem coverage_chart_partitions_results (rs : list CrawlResult) :
  (rs ≠ [] →
     ∃ fb_only ig_only both neither,
       Analytics.coverage_counts rs = Ret [fb_only; ig_only; both; neither]
       ∧ (0 ≤ fb_only ∧ 0 ≤ ig_only ∧ 0 ≤ both ∧ 0 ≤ neither)%Z
       ∧ (fb_only + ig_only + both + neither)%Z = Z.of_nat (length rs)
       ∧ (fb_only + both)%Z = Z.of_nat (Analytics.fb_found rs)
       ∧ (ig_only + both)%Z = Z.of_nat (Analytics.ig_found rs)
       ∧ Analytics.successful rs ≤ length rs)
  ∧ (rs = [] → Analytics.coverage_counts rs = Raise KeyError).
Proof.
  split; [|by intros ->].
  intros Hne. destruct (coverage_sum rs) as (Hsum & Hfb & Hig).
  pose proof (count_le_length (fun r => (Status_Code r =? 200)%Z) rs) as Hok.
  destruct rs as [|r rs]; [done|].
  eexists _, _, _, _. split; [reflexivity|].
  unfold Analytics.successful. split_and!; lia.
Qed.

Lemma coverage_chart_partitions_results_witness :
  ∃ rs, rs ≠ []
    ∧ Analytics.coverage_counts rs = Ret [1; 0; 1; 1]%Z
    ∧ Analytics.successful rs ≤ length rs.
Proof.
  exists [ mkResult "A" "https://a.test/" "https://facebook.com/a" NOT_FOUND 200 1;
           mkResult "B" "https://b.test/" "https://facebook.com/b"
             "https://instagram.com/b" 200 2;
           mkResult "C" "https://c.test/" NOT_FOUND NOT_FOUND 0 1 ].
  split; [discriminate|].
  match goal with
  | |- context [Analytics.coverage_counts ?rs] =>
      destruct (proj1 (coverage_chart_partitions_results rs))
        as (a & b & c & d & Heq & _ & _ & _ & _ & Hok); [discriminate|]
  end.
  split; [vm_compute; reflexivity|exact Hok].
Defined.

Lemma crawl_site_pages_bounds (fuel : nat) (env : Env) (base_url biz_name : string)
    (r : CrawlResult) :
  crawl_site fuel env base_url biz_name = Ret r →
  1 ≤ Pages_Crawled r ≤ max_pages.
Proof.
  intros H. apply crawl_site_ret in H as (st & Hrun & _ & _ & _ & -> & _).
  destruct (crawl_run_inv _ _ _ _ Hrun) as [Hinv _].
  destruct (crawl_run_first_fetch _ _ _ _ Hrun) as [H1 _].
  split; [done|apply (inv_budget _ _ Hinv)].
Qed.

Lemma total_pages_bounds (rs : list CrawlResult) :
  (∀ r, r ∈ rs → 1 ≤ Pages_Crawled r ≤ max_pages) →
  length rs ≤ Analytics.total_pages rs ≤ max_pages * length rs.
Proof.
  induction rs as [|r rs IH]; intros H; [simpl; lia|].
  pose proof (H r ltac:(left)) as Hr.
  destruct IH as [IH1 IH2]; [intros x Hx; apply H; by right|].
  simpl Analytics.total_pages. simpl length. unfold max_pages in *. lia.
Qed.

(** X12.  The analytics of a finished batch.  When [process_websites]
    returns for a non-empty list of targets (the start button runs it for
    no other), the coverage counts of its results can be taken and add up
    to the number of targets, and the sum of [Pages Crawled] lies between
    that number and [max_pages] times it: the average shown is between 1
    and 3. *)
Theorem analytics_of_batch (fuel : nat) (envs : nat → Env)
    (businesses : list (string * string)) (ui : list ui_event) (rs : list CrawlResult) :
  businesses ≠ [] →
  process_websites fuel envs businesses = (ui, Ret rs) →
  (∃ fb_only ig_only both neither,
     Analytics.coverage_counts rs = Ret [fb_only; ig_only; both; neither]
     ∧ (fb_only + ig_only + both + neither)%Z = Z.of_nat (length businesses))
  ∧ length businesses ≤ Analytics.total_pages rs ≤ max_pages * length businesses.
Proof.
  intros Hne Hret.
  assert (Hall : ∀ k biz_name url, businesses !! k = Some (biz_name, url) →
            ∃ r, crawl_site fuel (envs k) url biz_name = Ret r).
  { intros k n u Hk. unfold process_websites in Hret.
    by apply (process_from_ret fuel envs _ _ _ _ _ _ _ Hret k n u Hk). }
  destruct (process_websites_ok fuel envs businesses Hall) as (rs' & Heq & Hlen & Hrs).
  rewrite Heq in Hret. injection Hret as _ ->.
  assert (Hrne : rs ≠ []). { intros ->. by destruct businesses. }
  destruct (coverage_sum rs) as (Hsum & Hfb & Hig).
  split.
  - destruct rs as [|r rs]; [done|]. eexists _, _, _, _. split; [reflexivity|].
    rewrite <- Hlen. lia.
  - rewrite <- Hlen. apply total_pages_bounds. intros r Hr.
    apply list_elem_of_lookup in Hr as [k Hk].
    assert (Hlt : k < length businesses).
    { rewrite <- Hlen. by eapply lookup_lt_Some. }
    apply lookup_lt_is_Some in Hlt as [[n u] Hb].
    destruct (Hrs k n u Hb) as (r' & Hk' & Hcs & _).
    rewrite Hk in Hk'. injection Hk' as <-.
    by eapply crawl_site_pages_bounds.
Qed.

Lemma analytics_of_batch_witness :
  ∃ ui rs,
    process_websites 4 (fun _ => Demo.env Demo.social_site)
      [ ("Down", "https://down.test/"); ("A", "https://example.com/") ] = (ui, Ret rs)
    ∧ 2 ≤ Analytics.total_pages rs ≤ max_pages * 2.
Proof.
  eexists _, _. split; [vm_compute; reflexivity|].
  match goal with
  | |- _ ≤ Analytics.total_pages ?rs ≤ _ =>
      exact (proj2 (analytics_of_batch 4 (fun _ => Demo.env Demo.social_site)
               [ ("Down", "https://down.test/"); ("A", "https://example.com/") ]
               _ rs ltac:(discriminate) eq_refl))
  end.
Defined.

(** ** Choosing the columns of an uploaded table *)

Lemma detect_column_some (patterns columns : list string) (col : string) :
  detect_column patterns columns = Some col →
  ∃ before after,
    columns = before ++ col :: after
    ∧ PyText.strip (PyStr.lower col) ∈ patterns
    ∧ ∀ c, c ∈ before → PyText.strip (PyStr.lower c) ∉ patterns.
Proof.
  induction columns as [|c rest IH]; [done|]. simpl.
  case_bool_decide as Hc.
  - intros [= <-]. exists [], rest. split_and!; [done|done|].
    intros x Hx. inversion Hx.
  - intros H. destruct (IH H) as (before & after & -> & Hin & Hfirst).
    exists (c :: before), after. split_and!; [done|done|].
    intros x Hx. apply elem_of_cons in Hx as [->|Hx]; auto.
Qed.

Lemma detect_column_none (patterns columns : list string) :
  detect_column patterns columns = None
  ↔ ∀ c, c ∈ columns → PyText.strip (PyStr.lower c) ∉ patterns.
Proof.
  induction columns as [|c rest IH]; simpl.
  - split; [|done]. intros _ x Hx. inversion Hx.
  - case_bool_decide as Hc.
    + split; [done|]. intros H. exfalso. apply (H c); [left|done].
    + rewrite IH. split.
      * intros H x Hx. apply elem_of_cons in Hx as [->|Hx]; auto.
      * intros H x Hx. apply H. by right.
Qed.

Lemma patterns_disjoint (s : string) : s ∈ name_patterns → s ∉ url_patterns.
Proof.
  unfold name_patterns, url_patterns. intros H1 H2.
  repeat (apply elem_of_cons in H1 as [->|H1];
          [repeat (apply elem_of_cons in H2 as [H2|H2]; [discriminate|]);
           inversion H2|]).
  inversion H1.
Qed.

(** X13.  Column detection.  When both columns are detected they are two
    different columns of the table, each the first one whose lowercased
    and stripped name is in its pattern list; nothing is detected exactly
    when the table has no column for the names or no column for the URLs.
    One column can never serve as both. *)
Theorem detected_columns_distinct (columns : list string) :
  (∀ name_col url_col,
     detect_columns columns = Some (name_col, url_col) →
     name_col ≠ url_col
     ∧ (∃ before after, columns = before ++ name_col :: after
          ∧ PyText.strip (PyStr.lower name_col) ∈ name_patterns
          ∧ ∀ c, c ∈ before → PyText.strip (PyStr.lower c) ∉ name_patterns)
     ∧ (∃ before after, columns = before ++ url_col :: after
          ∧ PyText.strip (PyStr.lower url_col) ∈ url_patterns
          ∧ ∀ c, c ∈ before → PyText.strip (PyStr.lower c) ∉ url_patterns))
  ∧ (detect_columns columns = None
     ↔ (∀ c, c ∈ columns → PyText.strip (PyStr.lower c) ∉ name_patterns)
       ∨ (∀ c, c ∈ columns → PyText.strip (PyStr.lower c) ∉ url_patterns)).
Proof.
  unfold detect_columns. split.
  - intros n u H.
    destruct (detect_column name_patterns columns) as [n'|] eqn:En; [|done].
    destruct (detect_column url_patterns columns) as [u'|] eqn:Eu; [|done].
    injection H as -> ->.
    pose proof (detect_column_some _ _ _ En) as Hn.
    pose proof (detect_column_some _ _ _ Eu) as Hu.
    split_and!; [|done|done].
    intros ->. destruct Hn as (_ & _ & _ & Hn & _), Hu as (_ & _ & _ & Hu & _).
    by apply (patterns_disjoint _ Hn).
  - rewrite <- !detect_column_none.
    destruct (detect_column name_patterns columns),
      (detect_column url_patterns columns); split; intros H;
      try done; try (by left); try (by right); by destruct H.
Qed.

Lemma detected_columns_distinct_witness :
  detect_columns [ "id"; " Company "; "Name"; "WEBSITE"; "url" ]
    = Some (" Company ", "WEBSITE")
  ∧ " Company " ≠ "WEBSITE".
Proof.
  split; [vm_compute; reflexivity|].
  exact (proj1 (proj1 (detected_columns_distinct
                         [ "id"; " Company "; "Name"; "WEBSITE"; "url" ])
                  " Company " "WEBSITE" ltac:(vm_compute; reflexivity))).
Defined.

(** ** The manual input *)

Lemma has_char_lstrip (c : ascii) (p : ascii → bool) (s : string) :
  PyStr.has_char c (PyStr.lstrip p s) = true → PyStr.has_char c s = true.
Proof.
  induction s as [|a s IH]; [done|]. cbn [PyStr.lstrip].
  destruct (p a); [|done]. intros H. cbn [PyStr.has_char].
  rewrite (IH H). by destruct (Ascii.eqb c a).
Qed.

Lemma has_char_rstrip (c : ascii) (s : string) :
  PyStr.has_char c (PyText.rstrip s) = true → PyStr.has_char c s = true.
Proof.
  induction s as [|a s IH]; [done|]. cbn [PyText.rstrip PyStr.has_char].
  destruct (PyText.rstrip s) as [|b r] eqn:E.
  - destruct (PyText.is_space a); [done|]. cbn [PyStr.has_char].
    by destruct (Ascii.eqb c a).
  - cbn [PyStr.has_char] in *. destruct (Ascii.eqb c a); [done|]. exact IH.
Qed.

Lemma split_pieces_no_sep (sep : ascii) (s x : string) :
  x ∈ PyText.split sep s → PyStr.has_char sep x = false.
Proof.
  revert x. induction s as [|a s IH]; intros x Hx; cbn [PyText.split] in Hx.
  - apply elem_of_cons in Hx as [->|Hx]; [done|inversion Hx].
  - destruct (Ascii.eqb a sep) eqn:Ea.
    + apply elem_of_cons in Hx as [->|Hx]; [done|by apply IH].
    + rewrite Ascii.eqb_sym in Ea.
      destruct (PyText.split sep s) as [|piece pieces].
      * apply elem_of_cons in Hx as [->|Hx]; [|inversion Hx].
        cbn [PyStr.has_char]. by rewrite Ea.
      * apply elem_of_cons in Hx as [->|Hx].
        -- cbn [PyStr.has_char]. rewrite Ea. apply IH. left.
        -- apply IH. by right.
Qed.

Lemma rstrip_idem (s : string) : PyText.rstrip (PyText.rstrip s) = PyText.rstrip s.
Proof.
  induction s as [|a s IH]; [done|]. cbn [PyText.rstrip].
  destruct (PyText.rstrip s) as [|b r] eqn:E.
  - destruct (PyText.is_space a) eqn:Ea; [done|].
    cbn [PyText.rstrip]. by rewrite Ea.
  - change (PyText.rstrip (String a (String b r)))
      with (match PyText.rstrip (String b r) with
            | EmptyString =>
                if PyText.is_space a then EmptyString else String a EmptyString
            | r' => String a r'
            end).
    by rewrite IH.
Qed.

Lemma lstrip_starts_clean (s : string) : starts_clean (PyStr.lstrip PyText.is_space s).
Proof.
  induction s as [|a s IH]; [done|]. cbn [PyStr.lstrip].
  by destruct (PyText.is_space a) eqn:Ea.
Qed.

Lemma rstrip_starts_clean (s : string) : starts_clean s → starts_clean (PyText.rstrip s).
Proof.
  destruct s as [|a s]; [done|]. cbn [PyText.rstrip starts_clean]. intros Ha.
  destruct (PyText.rstrip s); by rewrite ?Ha.
Qed.

Lemma lstrip_of_clean (s : string) : starts_clean s → PyStr.lstrip PyText.is_space s = s.
Proof. destruct s as [|a s]; [done|]. cbn [starts_clean PyStr.lstrip]. by intros ->. Qed.

Lemma strip_idem (s : string) : PyText.strip (PyText.strip s) = PyText.strip s.
Proof.
  unfold PyText.strip.
  rewrite (lstrip_of_clean (PyText.rstrip _)).
  - apply rstrip_idem.
  - apply rstrip_starts_clean, lstrip_starts_clean.
Qed.

Lemma nonblank_lines_clean (text x : string) :
  x ∈ PyText.nonblank_lines text →
  x ≠ "" ∧ PyText.strip x = x ∧ PyStr.has_char PyText.newline x = false.
Proof.
  unfold PyText.nonblank_lines. intros Hx.
  apply list_elem_of_filter in Hx as [Hne Hx].
  apply list_elem_of_In, in_map_iff in Hx as (line & <- & Hline).
  apply list_elem_of_In, split_pieces_no_sep in Hline.
  split_and!; [done|apply strip_idem|].
  destruct (PyStr.has_char PyText.newline (PyText.strip line)) eqn:E; [|done].
  unfold PyText.strip in E. apply has_char_rstrip, has_char_lstrip in E. congruence.
Qed.

(** X14.  The manual input.  The list of targets is replaced only when
    both text areas are filled in and hold the same number of non-blank
    lines; then the k-th name is paired with the k-th URL, and every name
    and URL is non-empty, has no white space around it and no line break
    in it.  With an empty text area or differing counts the list chosen
    before is kept; with text areas that hold only blank lines it is
    replaced by the empty list. *)
Theorem manual_input_pairs (from_csv : list (string * string))
    (business_names website_urls : string) :
  let names_list := PyText.nonblank_lines business_names in
  let urls_list := PyText.nonblank_lines website_urls in
  let chosen := manual_businesses from_csv business_names website_urls in
  (business_names = "" ∨ website_urls = "" ∨ length names_list ≠ length urls_list →
     chosen = from_csv)
  ∧ (business_names ≠ "" → website_urls ≠ "" → length names_list = length urls_list →
       map fst chosen = names_list ∧ map snd chosen = urls_list
       ∧ (names_list = [] → chosen = []))
  ∧ (∀ n u, (n, u) ∈ chosen →
       (n, u) ∈ from_csv
       ∨ ((n ≠ "" ∧ PyText.strip n = n ∧ PyStr.has_char PyText.newline n = false)
          ∧ (u ≠ "" ∧ PyText.strip u = u ∧ PyStr.has_char PyText.newline u = false))).
Proof.
  intros names_list urls_list chosen. subst chosen. unfold manual_businesses.
  fold names_list urls_list.
  destruct (String.eqb_spec business_names "") as [Hb|Hb];
    [simpl; split_and!; [done|done|by left]|].
  destruct (String.eqb_spec website_urls "") as [Hw|Hw];
    [simpl; split_and!; [done|done|by left]|].
  simpl. destruct (Nat.eqb_spec (length names_list) (length urls_list)) as [Hl|Hl]; simpl.
  - split_and!.
    + intros [?|[?|?]]; done.
    + intros _ _ _. split_and!.
      * apply (fst_zip names_list urls_list). lia.
      * apply (snd_zip names_list urls_list). lia.
      * by intros ->.
    + intros n u Hin. right. split.
      * apply elem_of_zip_l in Hin. by apply nonblank_lines_clean in Hin.
      * apply elem_of_zip_r in Hin. by apply nonblank_lines_clean in Hin.
  - split_and!; [done|done|by left].
Qed.

Lemma manual_input_pairs_witness :
  manual_businesses [("Old", "https://old.test/")]
    ("Acme Ltd " +:+ String PyText.newline (String PyText.newline " Bolt"))
    ("https://acme.test" +:+ String PyText.newline "https://bolt.test ")
    = [("Acme Ltd", "https://acme.test"); ("Bolt", "https://bolt.test")]
  ∧ map fst (manual_businesses [("Old", "https://old.test/")]
               ("Acme Ltd " +:+ String PyText.newline (String PyText.newline " Bolt"))
               ("https://acme.test" +:+ String PyText.newline "https://bolt.test "))
    = PyText.nonblank_lines
        ("Acme Ltd " +:+ String PyText.newline (String PyText.newline " Bolt"))
  ∧ manual_businesses [("Old", "https://old.test/")]
      (String " " (String PyText.newline EmptyString))
      (String " " (String PyText.newline EmptyString)) = [].
Proof.
  split; [vm_compute; reflexivity|]. split.
  - apply (proj1 (proj2 (manual_input_pairs [("Old", "https://old.test/")]
             ("Acme Ltd " +:+ String PyText.newline (String PyText.newline " Bolt"))
             ("https://acme.test" +:+ String PyText.newline "https://bolt.test "))));
      [discriminate|discriminate|vm_compute; reflexivity].
  - apply (proj1 (proj2 (manual_input_pairs [("Old", "https://old.test/")]
             (String " " (String PyText.newline EmptyString))
             (String " " (String PyText.newline EmptyString)))));
      [discriminate|discriminate|vm_compute; reflexivity|vm_compute; reflexivity].
Defined.
